(** * Verification of the Markdown-to-Slack translation in [slackbot.py]

    The development embeds [translate_markdown_for_slack] and
    [format_table_for_slack] of [src/slackbot.py] and proves the properties
    the specification states about them.

    Conventions of the embedding:
    - a Python [str] is a [string]; its characters are Rocq's 8-bit [ascii],
      read as the code points below 256;
    - Python lists are [list]; [l[i]] is a lookup that raises [IndexError]
      out of range, [l[i] = x] an in-place update that raises likewise;
    - the two [while] loops take a bound on their number of iterations and
      raise [OutOfFuel] when it is exhausted; [for] loops are folds;
    - the calls into Python's [str] and [re] libraries are modelled by
      functions of the same name and behaviour. *)

From Stdlib Require Import String Ascii List Arith Bool Lia.
From stdpp Require Import base option list list_numbers strings gmap.

Open Scope string_scope.
Open Scope list_scope.
Open Scope nat_scope.

(** ** Python's [str] library *)

Module Py.

(** The newline character and the one-character string holding it. *)
Definition newline : ascii := "010"%char.
Definition nl : string := String newline EmptyString.

(** [str.isspace] on a single character, as used by [str.strip] and by the
    class [\s]: the code points 9-13, 28-32, 133 and 160. *)
Definition isspace (c : ascii) : bool :=
  let n := nat_of_ascii c in
  ((9 <=? n) && (n <=? 13)) || ((28 <=? n) && (n <=? 32))
  || (n =? 133) || (n =? 160).

Fixpoint lstrip (s : string) : string :=
  match s with
  | EmptyString => EmptyString
  | String c s' => if isspace c then lstrip s' else s
  end.

Fixpoint rstrip (s : string) : string :=
  match s with
  | EmptyString => EmptyString
  | String c s' =>
      match rstrip s' with
      | EmptyString => if isspace c then EmptyString else String c EmptyString
      | r => String c r
      end
  end.

(** [s.strip()] *)
Definition strip (s : string) : string := rstrip (lstrip s).

(** [s.startswith(p)] *)
Fixpoint startswith (s p : string) {struct p} : bool :=
  match p with
  | EmptyString => true
  | String a p' =>
      match s with
      | EmptyString => false
      | String b s' => Ascii.eqb a b && startswith s' p'
      end
  end.

(** [s.endswith(p)]: some suffix of [s] is [p]. *)
Fixpoint endswith (s p : string) : bool :=
  String.eqb s p ||
  match s with
  | EmptyString => false
  | String _ s' => endswith s' p
  end.

(** [p in s]: [p] starts some suffix of [s]. *)
Fixpoint contains (s p : string) : bool :=
  startswith s p ||
  match s with
  | EmptyString => false
  | String _ s' => contains s' p
  end.

(** [s.split(sep)] for a one-character separator. *)
Fixpoint split (sep : ascii) (s : string) : list string :=
  match s with
  | EmptyString => [EmptyString]
  | String c s' =>
      if Ascii.eqb c sep then EmptyString :: split sep s'
      else match split sep s' with
           | h :: t => String c h :: t
           | [] => [String c EmptyString]
           end
  end.

(** [sep.join(l)] *)
Definition join (sep : string) (l : list string) : string :=
  String.concat sep l.

(** [s.replace(c, '')] for a one-character [c]. *)
Fixpoint remove_char (c : ascii) (s : string) : string :=
  match s with
  | EmptyString => EmptyString
  | String a s' =>
      if Ascii.eqb a c then remove_char c s' else String a (remove_char c s')
  end.

(** [c * n] *)
Fixpoint repeat_char (c : ascii) (n : nat) : string :=
  match n with
  | 0 => EmptyString
  | S n' => String c (repeat_char c n')
  end.

(** [s.ljust(w)] *)
Definition ljust (s : string) (w : nat) : string :=
  s +:+ repeat_char " " (w - String.length s).

(** [l[1:-1]] *)
Definition slice_inner {A : Type} (l : list A) : list A :=
  removelast (tail l).

(** [enumerate(l)] *)
Fixpoint enumerate_from {A : Type} (n : nat) (l : list A) : list (nat * A) :=
  match l with
  | [] => []
  | x :: l' => (n, x) :: enumerate_from (S n) l'
  end.

Definition enumerate {A : Type} (l : list A) : list (nat * A) :=
  enumerate_from 0 l.

End Py.

(** ** Outcomes of the embedded code *)

Inductive exn : Type :=
| IndexError
| OutOfFuel.

Inductive result (A : Type) : Type :=
| Ok (a : A)
| Raise (e : exn).

Arguments Ok {A} a.
Arguments Raise {A} e.

#[global] Instance result_ret : MRet result := fun A a => Ok a.

#[global] Instance result_bind : MBind result := fun A B f m =>
  match m with
  | Ok a => f a
  | Raise e => Raise e
  end.

(** [l[i]] *)
Definition getitem {A : Type} (l : list A) (i : nat) : result A :=
  match l !! i with
  | Some x => Ok x
  | None => Raise IndexError
  end.

(** [l[i] = x] *)
Definition setitem {A : Type} (l : list A) (i : nat) (x : A) : result (list A) :=
  if i <? length l then Ok (<[i:=x]> l) else Raise IndexError.

(** [for x in l: s = body x s] *)
Fixpoint for_each {A S : Type} (l : list A) (body : A -> S -> result S) (s : S)
  : result S :=
  match l with
  | [] => Ok s
  | x :: l' => s' ← body x s; for_each l' body s'
  end.

(** [[f x for x in l]] *)
Fixpoint comprehension {A B : Type} (f : A -> result B) (l : list A)
  : result (list B) :=
  match l with
  | [] => Ok []
  | x :: l' => y ← f x; ys ← comprehension f l'; Ok (y :: ys)
  end.

(** ** The two regular expressions of the program *)

Module Re.
Import Py.

(** [s[n:]] *)
Fixpoint slice_from (n : nat) (s : string) : string :=
  match n, s with
  | S n', String _ s' => slice_from n' s'
  | _, _ => s
  end.

(** The tail [(.*?)\*\*] of the pattern [\*\*(.*?)\*\*], tried at [t]: the
    shortest run of characters other than the newline that is followed by
    two asterisks.  Returns the run (group 1) and what follows the match. *)
Fixpoint find_close (t : string) : option (string * string) :=
  if startswith t "**" then Some (EmptyString, slice_from 2 t)
  else match t with
       | EmptyString => None
       | String a t' =>
           if Ascii.eqb a newline then None
           else '(content, rest) ← find_close t'; Some (String a content, rest)
       end.

(** The pattern [\*\*(.*?)\*\*] tried at the start of [s]. *)
Definition match_bold (s : string) : option (string * string) :=
  if startswith s "**" then find_close (slice_from 2 s) else None.

(** The scan of [re.sub]: [skip] is the number of characters still to pass
    over because the last match covered them.  Where the pattern matches,
    the replacement [*\1*] is written and the scan resumes after the match;
    elsewhere the character is copied. *)
Fixpoint sub_scan (s : string) (skip : nat) : string :=
  match s with
  | EmptyString => EmptyString
  | String c s' =>
      match skip with
      | S k => sub_scan s' k
      | 0 =>
          match match_bold s with
          | Some (content, _) =>
              "*" +:+ content +:+ "*" +:+ sub_scan s' (String.length content + 3)
          | None => String c (sub_scan s' 0)
          end
      end
  end.

(** [re.sub(r'\*\*(.*?)\*\*', r'*\1*', text)] *)
Definition sub_bold (text : string) : string := sub_scan text 0.

(** The class [[\s\-|:]]. *)
Definition separator_char (c : ascii) : bool :=
  isspace c || Ascii.eqb c "-" || Ascii.eqb c "|" || Ascii.eqb c ":".

(** [$]: the end of the string, or just before a newline that ends it. *)
Definition at_end (s : string) : bool :=
  String.eqb s EmptyString || String.eqb s nl.

(** [[\s\-|:]*\|$], with the backtracking of the star written out. *)
Fixpoint separator_tail (s : string) : bool :=
  match s with
  | EmptyString => false
  | String c s' =>
      (separator_char c && separator_tail s') || (Ascii.eqb c "|" && at_end s')
  end.

(** [re.match(r'^\|[\s\-|:]+\|$', s)] finds a match. *)
Definition match_separator (s : string) : bool :=
  match s with
  | String c (String d s') =>
      Ascii.eqb c "|" && separator_char d && separator_tail s'
  | _ => false
  end.

End Re.

(** ** [format_table_for_slack] *)

Import Py.

(** [[cell.strip() for cell in line.split('|')[1:-1]]] *)
Definition cells_of (line : string) : list string :=
  strip <$> slice_inner (split "|" line).

(** The body of the width loop for one row. *)
Definition widen_row (num_cols : nat) (row : list string) (col_widths : list nat)
  : result (list nat) :=
  for_each (enumerate row)
    (fun '(i, cell) col_widths =>
       if i <? num_cols then
         let clean_cell := remove_char "*" cell in
         w ← getitem col_widths i;
         setitem col_widths i (Nat.max w (String.length clean_cell))
       else Ok col_widths)
    col_widths.

(** The column widths: [col_widths] after the width loop. *)
Definition column_widths (rows : list (list string)) (num_cols : nat)
  : result (list nat) :=
  for_each rows (widen_row num_cols) (replicate num_cols 0).

(** [formatted_cells] of one row. *)
Definition format_cells (num_cols : nat) (col_widths : list nat) (row : list string)
  : result (list string) :=
  for_each (enumerate row)
    (fun '(i, cell) formatted_cells =>
       if i <? num_cols then
         let display_cell := remove_char "*" cell in
         w ← getitem col_widths i;
         let padded_cell := ljust display_cell w in
         Ok (formatted_cells ++ [padded_cell])
       else Ok formatted_cells)
    [].

(** [separator_row] *)
Definition separator_row (num_cols : nat) (col_widths : list nat) : result string :=
  separator_cells ←
    comprehension (fun i => w ← getitem col_widths i; Ok (repeat_char "-" w))
                  (seq 0 num_cols);
  Ok (join "-|-" separator_cells).

(** The body of the formatting loop for one row. *)
Definition format_row (rows : list (list string)) (num_cols : nat)
    (col_widths : list nat) (row_idx : nat) (row : list string)
    (formatted_rows : list string) : result (list string) :=
  formatted_cells ← format_cells num_cols col_widths row;
  let formatted_row := join " | " formatted_cells in
  let formatted_rows := formatted_rows ++ [formatted_row] in
  if (row_idx =? 0) && (1 <? length rows) then
    sep ← separator_row num_cols col_widths;
    Ok (formatted_rows ++ [sep])
  else Ok formatted_rows.

Definition format_table_for_slack (table_lines : list string)
  : result (list string) :=
  match table_lines with
  | [] => Ok []
  | _ =>
      let rows := cells_of <$> table_lines in
      match rows with
      | [] => Ok []
      | _ =>
          row0 ← getitem rows 0;
          let num_cols := length row0 in
          col_widths ← column_widths rows num_cols;
          for_each (enumerate rows)
            (fun '(row_idx, row) formatted_rows =>
               format_row rows num_cols col_widths row_idx row formatted_rows)
            []
      end
  end.

(** ** [translate_markdown_for_slack] *)

(** The test that opens a table block. *)
Definition starts_table (line : string) : bool :=
  contains line "|" && startswith (strip line) "|" && endswith (strip line) "|".

(** The test that keeps the collecting loop going. *)
Definition continues_table (line : string) : bool :=
  contains line "|" && startswith (strip line) "|".

(** The inner [while]: collects the rows of a block from line [i] on and
    returns the cursor after the block with [table_lines]. *)
Fixpoint collect_table (fuel : nat) (lines : list string) (i : nat)
    (table_lines : list string) : result (nat * list string) :=
  match fuel with
  | 0 => Raise OutOfFuel
  | S fuel' =>
      if i <? length lines then
        line ← getitem lines i;
        if continues_table line then
          let current_line := strip line in
          let table_lines :=
            if negb (Re.match_separator current_line)
            then table_lines ++ [current_line] else table_lines in
          collect_table fuel' lines (i + 1) table_lines
        else Ok (i, table_lines)
      else Ok (i, table_lines)
  end.

(** What a collected block adds to [result_lines]. *)
Definition emit_table (table_lines result_lines : list string)
  : result (list string) :=
  match table_lines with
  | [] => Ok result_lines
  | _ =>
      formatted_table ← format_table_for_slack table_lines;
      Ok ((result_lines ++ ["```"]) ++ formatted_table ++ ["```"])
  end.

(** The outer [while], from cursor [i] with [result_lines] so far. *)
Fixpoint scan_lines (fuel : nat) (lines : list string) (i : nat)
    (result_lines : list string) : result (list string) :=
  match fuel with
  | 0 => Raise OutOfFuel
  | S fuel' =>
      if i <? length lines then
        line ← getitem lines i;
        if starts_table line then
          '(i', table_lines) ← collect_table (S (length lines)) lines i [];
          result_lines ← emit_table table_lines result_lines;
          scan_lines fuel' lines i' result_lines
        else scan_lines fuel' lines (i + 1) (result_lines ++ [line])
      else Ok result_lines
  end.

(** The translation with a bound [fuel] on the iterations of the outer loop. *)
Definition translate_with_fuel (fuel : nat) (text : string) : result string :=
  let text := Re.sub_bold text in
  let lines := split newline text in
  result_lines ← scan_lines fuel lines 0 [];
  Ok (join nl result_lines).

(** The number of lines the outer loop runs over. *)
Definition line_count (text : string) : nat :=
  length (split newline (Re.sub_bold text)).

(** The translation: the outer loop runs at most once per line, and once
    more to leave. *)
Definition translate_markdown_for_slack (text : string) : result string :=
  translate_with_fuel (S (line_count text)) text.

(** Texts are written line by line. *)
Definition text_of (lines : list string) : string := join nl lines.

(** ** The specification's vocabulary *)

(** The display length of a cell: its length once every asterisk is removed. *)
Definition display_length (cell : string) : nat :=
  String.length (remove_char "*" cell).

(** The width of column [c]: the largest display length of cell [c] over the
    rows that have such a cell. *)
Definition width_of (rows : list (list string)) (c : nat) : nat :=
  max_list (omap (fun row : list string => display_length <$> row !! c) rows).

(** A rendered row: the cells, asterisks removed, padded to their column's
    width and joined; cells without a column are left out. *)
Definition render_row (col_widths : list nat) (row : list string) : string :=
  join " | "
    (zip_with (fun cell w => ljust (remove_char "*" cell) w) row col_widths).

(** The rule under the header. *)
Definition render_separator (col_widths : list nat) : string :=
  join "-|-" (repeat_char "-" <$> col_widths).

(** The rendered table: header, rule if there are further rows, the rest. *)
Definition render_table (rows : list (list string)) : list string :=
  match rows with
  | [] => []
  | row0 :: rest =>
      let col_widths := width_of rows <$> seq 0 (length row0) in
      render_row col_widths row0
      :: match rest with
         | [] => []
         | _ => [render_separator col_widths]
         end
      ++ (render_row col_widths <$> rest)
  end.

(** What a row adds to the width of column [c]: nothing without such a cell. *)
Definition cell_width (row : list string) (c : nat) : nat :=
  from_option display_length 0 (row !! c).

(** A text holds a pair of bold markers. *)
Definition has_bold_pair (s : string) : Prop :=
  exists a b c, s = a +:+ "**" +:+ b +:+ "**" +:+ c.

(** [s] starts with a bold span of content [content], followed by [rest]:
    the content holds no newline, and the closing marker is the first one
    after the opening marker. *)
Definition span_at (s content rest : string) : Prop :=
  s = "**" +:+ content +:+ "**" +:+ rest /\
  contains content nl = false /\
  contains (content +:+ "*") "**" = false.

(** The emphasis rewrite in the specification's words: from left to right,
    each bold span [**content**] becomes [*content*] and every other
    character is kept. *)
Inductive bold_rewrite : string -> string -> Prop :=
| rewrite_end : bold_rewrite "" ""
| rewrite_span (s content rest out : string) :
    span_at s content rest ->
    bold_rewrite rest out ->
    bold_rewrite s ("*" +:+ content +:+ "*" +:+ out)
| rewrite_char (c : ascii) (s out : string) :
    (forall content rest, ~ span_at (String c s) content rest) ->
    bold_rewrite s out ->
    bold_rewrite (String c s) (String c out).

(** The scan of [re.sub] tries the pattern at position [n] of [s]: no
    earlier match covers that position. *)
Fixpoint tries_at (s : string) (skip n : nat) {struct n} : bool :=
  match n with
  | 0 => skip =? 0
  | S n' =>
      match s with
      | EmptyString => false
      | String _ s' =>
          match skip with
          | S k => tries_at s' k n'
          | 0 =>
              match Re.match_bold s with
              | Some (content, _) => tries_at s' (String.length content + 3) n'
              | None => tries_at s' 0 n'
              end
          end
      end
  end.

(** A line is a separator row: the collecting loop takes it and drops it. *)
Definition separator_line (line : string) : Prop :=
  continues_table line = true /\ Re.match_separator (strip line) = true.

(** The rows the collecting loop keeps of a run of lines. *)
Definition kept_rows (block : list string) : list string :=
  List.filter (fun l => negb (Re.match_separator l)) (strip <$> block).

(** The collecting loop stops in front of [post]. *)
Definition stops_at (post : list string) : Prop :=
  match post with
  | [] => True
  | line :: _ => continues_table line = false
  end.

(** The scan of the lines with the bound of the translation. *)
Definition scan_all (lines : list string) : result (list string) :=
  scan_lines (S (length lines)) lines 0 [].

(** Every character of [s] satisfies [p]. *)
Fixpoint all_chars (p : ascii -> bool) (s : string) : bool :=
  match s with
  | EmptyString => true
  | String c s' => p c && all_chars p s'
  end.

(** The fenced block written for the rows [table_lines]. *)
Definition fenced (formatted_table : list string) : list string :=
  ["```"] ++ formatted_table ++ ["```"].

(** ** The shell: the environment, [SlackBot] and [main]

    What lies outside the program is given from outside: the variables of
    the process and the bindings the [.env] files hold, what the command
    line parser and the JSON parser do, the Slack client (taken to answer
    with a response or a [SlackApiError]) and the truth value of its
    responses.  The lines
    printed to [stderr] are kept as they are written in the source, their
    symbols as UTF-8 bytes. *)

(** [os.environ] *)
Abbreviation environ := (gmap string string).

(** [not os.getenv('SLACK_BOT_TOKEN')]: unset, or set to the empty string. *)
Definition no_token (env : environ) : bool :=
  match env !! "SLACK_BOT_TOKEN" with
  | Some (String _ _) => false
  | _ => true
  end.

(** [load_dotenv(path)] for a file holding the bindings [file]: a variable
    that is already set keeps its value. *)
Definition load_dotenv (file : environ) (env : environ) : environ :=
  env ∪ file.

(** [load_dotenv] guarded by the existence of the file. *)
Definition load_if_exists (file : option environ) (env : environ) : environ :=
  match file with
  | Some bindings => load_dotenv bindings env
  | None => env
  end.

(** [load_env_with_fallback]: [local] is [./.env], [home] is [~/.env] and
    [found] the file [load_dotenv()] finds by itself, each [None] when there
    is no such file. *)
Definition load_env_with_fallback (local home found : option environ)
    (env : environ) : environ :=
  let env := load_if_exists local env in
  let env := if no_token env then load_if_exists home env else env in
  if no_token env then load_if_exists found env else env.

(** The value [json.loads] returns: a dictionary or something else. *)
Inductive json_data (value : Type) : Type :=
| JsonDict (d : gmap string value)
| JsonOther (v : value).

Arguments JsonDict {value} d.
Arguments JsonOther {value} v.

(** What [json.loads] does: it returns data, or raises [JSONDecodeError], or
    raises something else (a [ValueError] on a number with too many digits,
    a [RecursionError]), given by its traceback. *)
Inductive json_result (value : Type) : Type :=
| Loaded (data : json_data value)
| JSONDecodeError
| JsonFailure (traceback : list string).

Arguments Loaded {value} data.
Arguments JSONDecodeError {value}.
Arguments JsonFailure {value} traceback.

(** The answer of the Slack client: a response, or [SlackApiError] with the
    error code of its response. *)
Inductive api_result (response : Type) : Type :=
| Posted (r : response)
| SlackApiError (error : string).

Arguments Posted {response} r.
Arguments SlackApiError {response} error.

(** The arguments of [chat_postMessage]. *)
Record request (value : Type) : Type := {
  req_channel : string;
  req_text : value;
  req_blocks : option value;
  req_mrkdwn : bool
}.

Arguments req_channel {value} _.
Arguments req_text {value} _.
Arguments req_blocks {value} _.
Arguments req_mrkdwn {value} _.

(** The outside of the program. *)
Record world (value response : Type) : Type := {
  str_value : string -> value;
  json_loads : string -> json_result value;
  chat_postMessage : request value -> api_result response;
  truthy : response -> bool
}.

Arguments str_value {value response} _ _.
Arguments json_loads {value response} _ _.
Arguments chat_postMessage {value response} _ _.
Arguments truthy {value response} _ _.

(** What a call of a sending method does: the lines it prints, the request
    it makes and the value it returns. *)
Record sending (value response : Type) : Type := {
  printed : list string;
  sent : request value;
  returned : option response
}.

Arguments printed {value response} _.
Arguments sent {value response} _.
Arguments returned {value response} _.

(** The arguments of the command line, once parsed. *)
Record arguments : Type := {
  destination : option string;
  text_only : bool
}.

(** What [parser.parse_args()] does: it returns the arguments, or prints the
    help and exits with status 0, or prints a usage error and exits with
    status 2. *)
Inductive parse_result : Type :=
| Namespace (args : arguments)
| ParserHelp (help : list string)
| ParserError (usage : list string).

(** What a run of [main] does: its exit status, the lines on [stdout] and
    on [stderr], and the requests made. *)
Record outcome (value : Type) : Type := {
  exit_status : nat;
  stdout : list string;
  stderr : list string;
  requests : list (request value)
}.

Arguments exit_status {value} _.
Arguments stdout {value} _.
Arguments stderr {value} _.
Arguments requests {value} _.

(** [channel or default] *)
Definition or_default (channel : option string) (default_channel : string)
  : string :=
  match channel with
  | Some (String c s) => String c s
  | _ => default_channel
  end.

(** [SlackBot.__init__]: the default channel of the bot. *)
Definition default_channel (env : environ) : string :=
  default "#general" (env !! "SLACK_CHANNEL").

Section Shell.
Context {value response : Type} (w : world value response).

(** [SlackBot.send_message] *)
Definition send_message (default_channel : string) (text : value)
    (channel : option string) : sending value response :=
  let target_channel := or_default channel default_channel in
  let req := {| req_channel := target_channel; req_text := text;
                req_blocks := None; req_mrkdwn := true |} in
  match chat_postMessage w req with
  | Posted r =>
      {| printed := ["✅ Message sent to " +:+ target_channel];
         sent := req; returned := Some r |}
  | SlackApiError error_msg =>
      {| printed :=
           if String.eqb error_msg "missing_scope" then
             ["❌ Error sending message: " +:+ error_msg;
              "💡 Your token needs 'chat:write' scope to send messages"]
           else if String.eqb error_msg "channel_not_found" then
             ["❌ Channel " +:+ target_channel
              +:+ " not found or bot doesn't have access"]
           else if String.eqb error_msg "not_in_channel" then
             ["❌ GESBot is not a member of " +:+ target_channel;
              "💡 Add GESBot to the channel first: /invite @GESBot"]
           else ["❌ Error sending message: " +:+ error_msg];
         sent := req; returned := None |}
  end.

(** [SlackBot.send_message_with_blocks] *)
Definition send_message_with_blocks (default_channel : string) (blocks : value)
    (text : value) (channel : option string) : sending value response :=
  let target_channel := or_default channel default_channel in
  let req := {| req_channel := target_channel; req_text := text;
                req_blocks := Some blocks; req_mrkdwn := true |} in
  match chat_postMessage w req with
  | Posted r =>
      {| printed := ["✅ Formatted message sent to " +:+ target_channel];
         sent := req; returned := Some r |}
  | SlackApiError error_msg =>
      {| printed :=
           if String.eqb error_msg "missing_scope" then
             ["❌ Error sending formatted message: " +:+ error_msg;
              "💡 Your token needs 'chat:write' scope to send messages"]
           else if String.eqb error_msg "channel_not_found" then
             ["❌ Channel " +:+ target_channel
              +:+ " not found or bot doesn't have access"]
           else if String.eqb error_msg "not_in_channel" then
             ["❌ GESBot is not a member of " +:+ target_channel;
              "💡 Add GESBot to the channel first: /invite @GESBot"]
           else ["❌ Error sending formatted message: " +:+ error_msg];
         sent := req; returned := None |}
  end.

(** An end with status 1 before anything is sent: [sys.exit(1)], or an
    exception nothing catches, after the lines [lines] on [stderr]. *)
Definition refuse (lines : list string) : outcome value :=
  {| exit_status := 1; stdout := []; stderr := lines; requests := [] |}.

(** The end of [main]: [if not response: sys.exit(1)]. *)
Definition finish (s : sending value response) : outcome value :=
  {| exit_status :=
       match returned s with
       | Some r => if truthy w r then 0 else 1
       | None => 1
       end;
     stdout := [];
     stderr := printed s;
     requests := [sent s] |}.

(** [main], run with the variables [env], with [parsed] what
    [parser.parse_args()] does on the command line, and with [stdin] a
    terminal or not and holding [input]. *)
Definition main (env : environ) (parsed : parse_result) (isatty : bool)
    (input : string) : result (outcome value) :=
  match parsed with
  | ParserHelp help =>
      Ok {| exit_status := 0; stdout := help; stderr := []; requests := [] |}
  | ParserError usage =>
      Ok {| exit_status := 2; stdout := []; stderr := usage; requests := [] |}
  | Namespace args =>
      if isatty then
        Ok (refuse
              ["Error: No input provided. This script expects input via pipeline.";
               "Usage: echo 'message' | python slackbot.py [destination]"])
      else
        let input_data := strip input in
        if String.eqb input_data ""
        then Ok (refuse ["Error: Empty input received"])
        else
          let bot := default_channel env in
          match (if negb (text_only args) then json_loads w input_data
                 else JSONDecodeError) with
          | Loaded (JsonDict message_data) =>
              match message_data !! "blocks" with
              | Some blocks =>
                  Ok (finish (send_message_with_blocks bot blocks
                                (default (str_value w "")
                                         (message_data !! "text"))
                                (destination args)))
              | None =>
                  match message_data !! "text" with
                  | Some text =>
                      Ok (finish (send_message bot text (destination args)))
                  | None => Ok (refuse ["Error: Invalid message structure"])
                  end
              end
          | Loaded (JsonOther _) =>
              Ok (refuse ["Error: Message data must be a dictionary"])
          | JSONDecodeError =>
              slack_formatted_text ← translate_markdown_for_slack input_data;
              Ok (finish (send_message bot (str_value w slack_formatted_text)
                            (destination args)))
          | JsonFailure traceback => Ok (refuse traceback)
          end
  end.

(** A run has delivered a message: it made one request and the client gave
    a response that counts as true. *)
Definition delivered (o : outcome value) : Prop :=
  exists req r,
    requests o = [req] /\ chat_postMessage w req = Posted r /\
    truthy w r = true.

(** A run is settled: it made at most one request, and its exit status is 0
    when it has delivered a message and 1 when it has not. *)
Definition settled (o : outcome value) : Prop :=
  length (requests o) <= 1 /\
  (exit_status o = 0 /\ delivered o \/ exit_status o = 1 /\ ~ delivered o).

End Shell.

(** A world for the examples: JSON values are their texts, the parser knows
    the texts [42] and [{}], the client refuses the channel [#closed]. *)
Definition example_world : world string bool :=
  {| str_value := fun s => s;
     json_loads := fun s =>
       if String.eqb s "42" then Loaded (JsonOther "42")
       else if String.eqb s "{}" then Loaded (JsonDict ∅)
       else JSONDecodeError;
     chat_postMessage := fun req =>
       if String.eqb (req_channel req) "#closed"
       then SlackApiError "channel_not_found" else Posted true;
     truthy := fun r => r |}.

(** ** The result monad and the loops *)

Lemma bind_Ok {A B : Type} (a : A) (f : A -> result B) : (Ok a ≫= f) = f a.
Proof. reflexivity. Qed.

Lemma bind_Raise {A B : Type} (e : exn) (f : A -> result B) :
  (Raise e ≫= f) = Raise e.
Proof. reflexivity. Qed.

Lemma getitem_Some {A : Type} (l : list A) (i : nat) (x : A) :
  l !! i = Some x -> getitem l i = Ok x.
Proof. intros H. unfold getitem. now rewrite H. Qed.

Lemma setitem_lt {A : Type} (l : list A) (i : nat) (x : A) :
  i < length l -> setitem l i x = Ok (<[i:=x]> l).
Proof.
  intros H. unfold setitem.
  destruct (Nat.ltb_spec i (length l)); [reflexivity | lia].
Qed.

Lemma for_each_app {A S : Type} (l1 l2 : list A) (body : A -> S -> result S) (s : S) :
  for_each (l1 ++ l2) body s = (s' ← for_each l1 body s; for_each l2 body s').
Proof.
  revert s. induction l1 as [|x l1 IH]; intros s; simpl; [reflexivity|].
  destruct (body x s) as [s1|e]; simpl; [apply IH | reflexivity].
Qed.

Lemma enumerate_from_app {A : Type} (n : nat) (l1 l2 : list A) :
  enumerate_from n (l1 ++ l2)
  = enumerate_from n l1 ++ enumerate_from (n + length l1) l2.
Proof.
  revert n. induction l1 as [|x l1 IH]; intros n; simpl.
  - now rewrite Nat.add_0_r.
  - rewrite IH. do 3 f_equal. lia.
Qed.

(** ** The width loop *)

Lemma cell_width_snoc_last (row : list string) (x : string) :
  cell_width (row ++ [x]) (length row) = display_length x.
Proof.
  unfold cell_width. rewrite lookup_app_r by lia.
  now rewrite Nat.sub_diag.
Qed.

Lemma cell_width_ge (row : list string) (c : nat) :
  length row <= c -> cell_width row c = 0.
Proof.
  intros H. unfold cell_width. now rewrite lookup_ge_None_2.
Qed.

Lemma cell_width_snoc_lt (row : list string) (x : string) (c : nat) :
  c < length row -> cell_width (row ++ [x]) c = cell_width row c.
Proof.
  intros H. unfold cell_width. now rewrite lookup_app_l.
Qed.

Lemma widen_row_spec (n : nat) (row : list string) (ws : list nat) :
  length ws = n ->
  exists ws', widen_row n row ws = Ok ws' /\ length ws' = n /\
    forall c, ws' !! c = (fun w => Nat.max w (cell_width row c)) <$> ws !! c.
Proof.
  intros Hlen. unfold widen_row, enumerate.
  induction row as [|x row IH] using rev_ind.
  - exists ws. simpl. repeat split; [assumption|].
    intros c. unfold cell_width. rewrite lookup_nil. simpl.
    destruct (ws !! c); simpl; [f_equal; lia | reflexivity].
  - destruct IH as (ws1 & Hrun & Hlen1 & Hpt).
    rewrite enumerate_from_app, for_each_app, Hrun, bind_Ok. simpl.
    destruct (Nat.ltb_spec (length row) n) as [Hlt|Hge].
    + destruct (lookup_lt_is_Some_2 ws1 (length row)) as [w Hw]; [lia|].
      rewrite (getitem_Some _ _ _ Hw), bind_Ok, setitem_lt by lia. simpl.
      eexists. split; [reflexivity|]. split; [now rewrite length_insert|].
      intros c. destruct (decide (c = length row)) as [->|Hne].
      * rewrite list_lookup_insert_eq by lia.
        rewrite Hpt in Hw. rewrite cell_width_snoc_last.
        destruct (ws !! length row) as [w0|]; simpl in *; [|discriminate].
        injection Hw as <-. rewrite cell_width_ge by lia.
        unfold display_length. f_equal. lia.
      * rewrite list_lookup_insert_ne by congruence. rewrite Hpt.
        destruct (ws !! c) as [w0|] eqn:Hc; simpl; [|reflexivity].
        destruct (Nat.lt_ge_cases c (length row)).
        -- now rewrite cell_width_snoc_lt.
        -- rewrite (cell_width_ge row) by lia.
           rewrite cell_width_ge; [reflexivity|].
           rewrite length_app. simpl. lia.
    + exists ws1. split; [reflexivity|]. split; [assumption|].
      intros c. rewrite Hpt.
      destruct (ws !! c) as [w0|] eqn:Hc; simpl; [|reflexivity].
      apply lookup_lt_Some in Hc. now rewrite cell_width_snoc_lt by lia.
Qed.

Lemma width_of_cons (row : list string) (rows : list (list string)) (c : nat) :
  width_of (row :: rows) c = Nat.max (cell_width row c) (width_of rows c).
Proof.
  unfold width_of, cell_width. simpl.
  destruct (row !! c); reflexivity.
Qed.

Lemma column_widths_loop (n : nat) (rows : list (list string)) (ws : list nat) :
  length ws = n ->
  exists ws', for_each rows (widen_row n) ws = Ok ws' /\ length ws' = n /\
    forall c, ws' !! c = (fun w => Nat.max w (width_of rows c)) <$> ws !! c.
Proof.
  revert ws. induction rows as [|row rows IH]; intros ws Hlen.
  - exists ws. repeat split; [assumption|]. intros c.
    destruct (ws !! c); simpl; [f_equal|reflexivity].
    unfold width_of. simpl. lia.
  - destruct (widen_row_spec n row ws Hlen) as (ws1 & Hrun1 & Hlen1 & Hpt1).
    destruct (IH ws1 Hlen1) as (ws2 & Hrun2 & Hlen2 & Hpt2).
    exists ws2. simpl. rewrite Hrun1, bind_Ok. repeat split; [assumption..|].
    intros c. rewrite Hpt2, Hpt1, width_of_cons.
    destruct (ws !! c); simpl; [f_equal; lia | reflexivity].
Qed.

(** The width loop computes the widths of the specification. *)
Lemma column_widths_spec (rows : list (list string)) (n : nat) :
  column_widths rows n = Ok (width_of rows <$> seq 0 n).
Proof.
  unfold column_widths.
  destruct (column_widths_loop n rows (replicate n 0)) as (ws & Hrun & Hlen & Hpt);
    [apply length_replicate|].
  rewrite Hrun. f_equal. apply list_eq. intros c.
  rewrite Hpt, list_lookup_fmap.
  destruct (Nat.lt_ge_cases c n) as [Hlt|Hge].
  - rewrite lookup_replicate_2, lookup_seq_lt by assumption. reflexivity.
  - rewrite lookup_seq_ge by assumption.
    rewrite (lookup_ge_None_2 (replicate n 0)); [reflexivity|].
    now rewrite length_replicate.
Qed.

(** ** The formatting loop *)

Lemma format_cells_loop (n : nat) (ws : list nat) (row : list string)
    (k : nat) (acc : list string) :
  length ws = n ->
  for_each (enumerate_from k row)
    (fun '(i, cell) formatted_cells =>
       if i <? n then
         let display_cell := remove_char "*" cell in
         w ← getitem ws i;
         let padded_cell := ljust display_cell w in
         Ok (formatted_cells ++ [padded_cell])
       else Ok formatted_cells)
    acc
  = Ok (acc ++ zip_with (fun cell w => ljust (remove_char "*" cell) w)
                        row (drop k ws)).
Proof.
  intros Hlen. revert k acc.
  induction row as [|x row IH]; intros k acc; simpl.
  - now rewrite app_nil_r.
  - destruct (Nat.ltb_spec k n) as [Hlt|Hge].
    + destruct (lookup_lt_is_Some_2 ws k) as [w Hw]; [lia|].
      rewrite (getitem_Some _ _ _ Hw), bind_Ok. simpl.
      rewrite IH, (drop_S _ _ _ Hw). simpl.
      now rewrite <- app_assoc.
    + rewrite bind_Ok, IH.
      rewrite !drop_ge by lia. now destruct row.
Qed.

Lemma format_cells_spec (ws : list nat) (row : list string) :
  format_cells (length ws) ws row
  = Ok (zip_with (fun cell w => ljust (remove_char "*" cell) w) row ws).
Proof.
  unfold format_cells, enumerate.
  now rewrite (format_cells_loop (length ws)).
Qed.

Lemma separator_cells_loop (ws : list nat) (m k : nat) :
  k + m <= length ws ->
  comprehension (fun i => w ← getitem ws i; Ok (repeat_char "-" w)) (seq k m)
  = Ok (repeat_char "-" <$> take m (drop k ws)).
Proof.
  revert k. induction m as [|m IH]; intros k Hle; simpl.
  - reflexivity.
  - destruct (lookup_lt_is_Some_2 ws k) as [w Hw]; [lia|].
    rewrite (getitem_Some _ _ _ Hw), !bind_Ok, IH by lia.
    rewrite bind_Ok, (drop_S _ _ _ Hw). reflexivity.
Qed.

Lemma separator_row_spec (ws : list nat) :
  separator_row (length ws) ws = Ok (render_separator ws).
Proof.
  unfold separator_row. rewrite separator_cells_loop by lia.
  rewrite bind_Ok, drop_0, firstn_all. reflexivity.
Qed.

Lemma format_row_spec (rows : list (list string)) (ws : list nat)
    (row_idx : nat) (row : list string) (acc : list string) :
  format_row rows (length ws) ws row_idx row acc
  = Ok ((acc ++ [render_row ws row])
        ++ if (row_idx =? 0) && (1 <? length rows)
           then [render_separator ws] else []).
Proof.
  unfold format_row. rewrite format_cells_spec, bind_Ok.
  destruct ((row_idx =? 0) && (1 <? length rows)).
  - now rewrite separator_row_spec, bind_Ok.
  - now rewrite app_nil_r.
Qed.

Lemma format_rows_tail (rows : list (list string)) (ws : list nat)
    (rest : list (list string)) (k : nat) (acc : list string) :
  0 < k ->
  for_each (enumerate_from k rest)
    (fun '(row_idx, row) formatted_rows =>
       format_row rows (length ws) ws row_idx row formatted_rows)
    acc
  = Ok (acc ++ (render_row ws <$> rest)).
Proof.
  intros Hk. revert k Hk acc.
  induction rest as [|row rest IH]; intros k Hk acc;
    cbn [for_each enumerate_from fmap list_fmap].
  - now rewrite app_nil_r.
  - rewrite format_row_spec, bind_Ok.
    destruct (Nat.eqb_spec k 0) as [->|_]; [lia|].
    cbn [andb]. rewrite IH, app_nil_r by lia. now rewrite <- app_assoc.
Qed.

(** [format_table_for_slack] renders the table of the specification, and
    raises nothing. *)
Lemma format_table_for_slack_spec (table_lines : list string) :
  format_table_for_slack table_lines = Ok (render_table (cells_of <$> table_lines)).
Proof.
  destruct table_lines as [|line table_lines]; [reflexivity|].
  unfold format_table_for_slack.
  rewrite fmap_cons.
  set (rows := cells_of line :: (cells_of <$> table_lines)).
  rewrite (getitem_Some rows 0 (cells_of line)) by reflexivity.
  rewrite bind_Ok, column_widths_spec, bind_Ok.
  set (ws := width_of rows <$> seq 0 (length (cells_of line))).
  assert (Hn : length (cells_of line) = length ws).
  { unfold ws. now rewrite length_fmap, length_seq. }
  rewrite Hn. unfold enumerate, rows at 1.
  cbn [for_each enumerate_from].
  rewrite format_row_spec, bind_Ok, format_rows_tail by lia.
  unfold render_table, rows. fold rows. fold ws.
  destruct table_lines as [|line2 table_lines]; reflexivity.
Qed.

(** ** Column widths *)

Lemma width_of_take (n : nat) (rows : list (list string)) (c : nat) :
  c < n -> width_of (take n <$> rows) c = width_of rows c.
Proof.
  intros Hc. induction rows as [|row rows IH].
  - reflexivity.
  - rewrite fmap_cons, !width_of_cons, IH. unfold cell_width.
    now rewrite lookup_take_lt.
Qed.

Lemma widths_of_take (n : nat) (rows : list (list string)) :
  width_of (take n <$> rows) <$> seq 0 n = width_of rows <$> seq 0 n.
Proof.
  apply list_eq. intros c. rewrite !list_lookup_fmap.
  destruct (Nat.lt_ge_cases c n) as [Hlt|Hge].
  - rewrite lookup_seq_lt by assumption. simpl.
    now rewrite width_of_take.
  - now rewrite lookup_seq_ge.
Qed.

(** C7. In a table block whose first row has [num_cols] cells, the width
    loop yields one width per column below [num_cols]; the width of column
    [c] is the largest length, asterisks removed, of cell [c] over the rows
    that have more than [c] cells; cells at index [num_cols] or beyond change
    no width; the cell [*Bob*] counts for 3. *)
Theorem column_widths_are_maxima (row0 : list string) (rest : list (list string)) :
  let rows := row0 :: rest in
  let num_cols := length row0 in
  exists col_widths,
    column_widths rows num_cols = Ok col_widths /\
    length col_widths = num_cols /\
    (forall c, col_widths !! c
               = if c <? num_cols
                 then Some (max_list
                              (omap (fun row : list string =>
                                       (fun cell => String.length (remove_char "*" cell))
                                         <$> row !! c) rows))
                 else None) /\
    column_widths (take num_cols <$> rows) num_cols = Ok col_widths /\
    String.length (remove_char "*" "*Bob*") = 3.
Proof.
  intros rows num_cols.
  exists (width_of rows <$> seq 0 num_cols).
  split; [apply column_widths_spec|].
  split; [now rewrite length_fmap, length_seq|].
  split; [|split; [|reflexivity]].
  - intros c. rewrite list_lookup_fmap.
    destruct (Nat.ltb_spec c num_cols).
    + now rewrite lookup_seq_lt.
    + now rewrite lookup_seq_ge.
  - now rewrite column_widths_spec, widths_of_take.
Qed.

(** ** Concrete tables *)

Lemma render_row_no_columns (row : list string) : render_row [] row = "".
Proof. unfold render_row. now rewrite zip_with_nil_r. Qed.

Lemma render_rows_no_columns (rows : list (list string)) :
  render_row [] <$> rows = replicate (length rows) "".
Proof.
  induction rows as [|row rows IH]; [reflexivity|].
  rewrite fmap_cons, IH, render_row_no_columns. reflexivity.
Qed.

(** C10. When the first surviving row of a block has no cell, [num_cols] is
    0 and no width is kept; every rendered line is empty, one per surviving
    row and one more for the rule when several rows survive; the block is
    written as these lines between the two fence lines. *)
Theorem block_without_columns (first : string) (rest acc : list string) :
  cells_of first = [] ->
  let table_lines := first :: rest in
  let content :=
    replicate (length table_lines + if 1 <? length table_lines then 1 else 0) "" in
  column_widths (cells_of <$> table_lines) (length (cells_of first)) = Ok [] /\
  format_table_for_slack table_lines = Ok content /\
  emit_table table_lines acc = Ok ((acc ++ ["```"]) ++ content ++ ["```"]).
Proof.
  intros Hfirst table_lines content.
  assert (Hfmt : format_table_for_slack table_lines = Ok content).
  { rewrite format_table_for_slack_spec. unfold content, table_lines.
    rewrite fmap_cons, Hfirst. unfold render_table.
    cbn [length seq fmap list_fmap]. rewrite render_row_no_columns.
    destruct rest as [|line rest]; [reflexivity|].
    rewrite render_rows_no_columns, length_fmap.
    cbn [length Nat.ltb Nat.leb app].
    replace (S (S (length rest)) + 1) with (S (S (S (length rest)))) by lia.
    reflexivity. }
  split; [|split].
  - rewrite column_widths_spec, Hfirst. reflexivity.
  - exact Hfmt.
  - unfold emit_table, table_lines. fold table_lines.
    now rewrite Hfmt, bind_Ok.
Qed.

Lemma block_without_columns_witness :
  cells_of "|" = [] /\
  format_table_for_slack ["|"; "| x |"] = Ok [""; ""; ""] /\
  emit_table ["|"; "| x |"] ["intro"] = Ok ["intro"; "```"; ""; ""; ""; "```"].
Proof.
  split; [reflexivity|].
  exact (proj2 (block_without_columns "|" ["| x |"] ["intro"] eq_refl)).
Defined.

(** C4 as the claim words it: the content line with two spaces after [a]. *)
Lemma single_row_not_two_spaces :
  translate_markdown_for_slack "|a|bb|"
  <> Ok (text_of ["```"; "a  | bb"; "```"]).
Proof. vm_compute. discriminate. Qed.

(** C4, amended. The input [|a|bb|] is written as a fenced block holding the
    one content line [a | bb]; the column widths are 1 and 2, and no rule is
    written because the block has a single row. *)
Theorem single_row_table :
  translate_markdown_for_slack "|a|bb|" = Ok (text_of ["```"; "a | bb"; "```"]) /\
  format_table_for_slack ["|a|bb|"] = Ok ["a | bb"] /\
  cells_of "|a|bb|" = ["a"; "bb"] /\
  column_widths [cells_of "|a|bb|"] 2 = Ok [1; 2].
Proof. repeat split; vm_compute; reflexivity. Qed.

(** C5 as the claim words it: the rule with five dashes on either side. *)
Lemma header_rule_not_five_five :
  translate_markdown_for_slack (text_of ["|Name|Age|"; "|---|---|"; "|Bob|30|"])
  <> Ok (text_of ["```"; "Name | Age"; "-----|-----"; "Bob  | 30 "; "```"]).
Proof. vm_compute. discriminate. Qed.

(** C5, amended. The three-line input is written as a fenced block with the
    three content lines [Name | Age], [-----|----] and [Bob  | 30 ] (column
    widths 4 and 3).  In every table the rule is the runs of [-], one per
    column and as long as its width, joined with [-|-]; it follows the
    header exactly when more than one row survives the filtering. *)
Theorem header_rule_and_row :
  translate_markdown_for_slack (text_of ["|Name|Age|"; "|---|---|"; "|Bob|30|"])
  = Ok (text_of ["```"; "Name | Age"; "-----|----"; "Bob  | 30 "; "```"]) /\
  column_widths [["Name"; "Age"]; ["Bob"; "30"]] 2 = Ok [4; 3] /\
  forall (line : string) (table_lines : list string),
    let rows := cells_of <$> (line :: table_lines) in
    let col_widths := width_of rows <$> seq 0 (length (cells_of line)) in
    format_table_for_slack (line :: table_lines)
    = Ok (render_row col_widths (cells_of line)
          :: (if 1 <? length (line :: table_lines)
              then [join "-|-" (repeat_char "-" <$> col_widths)] else [])
          ++ (render_row col_widths <$> (cells_of <$> table_lines))).
Proof.
  split; [vm_compute; reflexivity|].
  split; [vm_compute; reflexivity|].
  intros line table_lines rows col_widths.
  rewrite format_table_for_slack_spec.
  destruct table_lines; reflexivity.
Qed.

(** ** The collecting loop *)

Lemma starts_table_continues (line : string) :
  starts_table line = true -> continues_table line = true.
Proof.
  unfold starts_table, continues_table. intros H.
  now apply andb_true_iff in H as [H _].
Qed.

Lemma getitem_middle {A : Type} (pre post : list A) (x : A) :
  getitem (pre ++ x :: post) (length pre) = Ok x.
Proof. apply getitem_Some. now rewrite list_lookup_middle. Qed.

Lemma ltb_middle {A : Type} (pre post : list A) (x : A) :
  (length pre <? length (pre ++ x :: post)) = true.
Proof. apply Nat.ltb_lt. rewrite length_app. simpl. lia. Qed.

Lemma kept_rows_cons (line : string) (block : list string) :
  kept_rows (line :: block)
  = (if negb (Re.match_separator (strip line)) then [strip line] else [])
    ++ kept_rows block.
Proof.
  unfold kept_rows. rewrite fmap_cons. simpl.
  now destruct (Re.match_separator (strip line)).
Qed.

(** The collecting loop takes a run of continuing lines up to the first line
    that does not continue, and keeps the rows that are no separator rows. *)
Lemma collect_table_run (block pre post table_lines : list string) (fuel : nat) :
  Forall (fun l => continues_table l = true) block ->
  stops_at post ->
  length block < fuel ->
  collect_table fuel (pre ++ block ++ post) (length pre) table_lines
  = Ok (length pre + length block, table_lines ++ kept_rows block).
Proof.
  intros Hblock Hpost. revert pre table_lines fuel.
  induction Hblock as [|line block Hline _ IH]; intros pre table_lines fuel Hfuel.
  - destruct fuel as [|fuel]; [simpl in Hfuel; lia|].
    cbn [collect_table app length]. change (kept_rows []) with (@nil string).
    rewrite Nat.add_0_r, (app_nil_r table_lines).
    destruct post as [|line post].
    + rewrite app_nil_r, Nat.ltb_irrefl. reflexivity.
    + rewrite ltb_middle, getitem_middle, bind_Ok.
      simpl in Hpost. now rewrite Hpost.
  - destruct fuel as [|fuel]; [simpl in Hfuel; lia|].
    cbn [collect_table]. rewrite <- app_comm_cons.
    rewrite ltb_middle, getitem_middle, bind_Ok, Hline.
    rewrite (cons_middle line pre), app_assoc.
    replace (length pre + 1) with (length (pre ++ [line]))
      by (rewrite length_app; reflexivity).
    rewrite IH by (simpl in Hfuel; lia).
    rewrite kept_rows_cons, length_app. cbn [length].
    f_equal. f_equal; [lia|].
    destruct (negb (Re.match_separator (strip line)));
      [now rewrite <- app_assoc | reflexivity].
Qed.

(** The collecting loop ends within its bound, past the line it starts on
    when that line continues a table. *)
Lemma collect_table_total (fuel : nat) (lines : list string) (i : nat)
    (table_lines : list string) :
  length lines - i < fuel ->
  exists j table_lines',
    collect_table fuel lines i table_lines = Ok (j, table_lines') /\
    i <= j /\
    (forall line, lines !! i = Some line -> continues_table line = true -> i < j).
Proof.
  revert i table_lines.
  induction fuel as [|fuel IH]; intros i table_lines Hfuel; [lia|].
  cbn [collect_table].
  destruct (Nat.ltb_spec i (length lines)) as [Hlt|Hge].
  - destruct (lookup_lt_is_Some_2 lines i Hlt) as [line Hline].
    rewrite (getitem_Some _ _ _ Hline), bind_Ok.
    destruct (continues_table line) eqn:Hcont.
    + edestruct (IH (i + 1)) as (j & tl & Hrun & Hle & _); [lia|].
      rewrite Hrun. exists j, tl. split; [reflexivity|].
      split; [lia|]. intros; lia.
    + exists i, table_lines. split; [reflexivity|]. split; [lia|].
      intros line' Hline' Hcont'. congruence.
  - exists i, table_lines. split; [reflexivity|]. split; [lia|].
    intros line Hline _. apply lookup_lt_Some in Hline. lia.
Qed.

(** ** The scanning loop *)

Lemma emit_table_total (table_lines result_lines : list string) :
  exists result_lines', emit_table table_lines result_lines = Ok result_lines'.
Proof.
  unfold emit_table. destruct table_lines as [|line table_lines].
  - now exists result_lines.
  - rewrite format_table_for_slack_spec, bind_Ok. eauto.
Qed.

(** The scanning loop ends within one iteration per remaining line, and one
    more to leave; it raises nothing. *)
Lemma scan_lines_total (fuel : nat) (lines : list string) (i : nat)
    (result_lines : list string) :
  length lines - i < fuel ->
  exists out, scan_lines fuel lines i result_lines = Ok out.
Proof.
  revert i result_lines.
  induction fuel as [|fuel IH]; intros i result_lines Hfuel; [lia|].
  cbn [scan_lines].
  destruct (Nat.ltb_spec i (length lines)) as [Hlt|Hge]; [|eauto].
  destruct (lookup_lt_is_Some_2 lines i Hlt) as [line Hline].
  rewrite (getitem_Some _ _ _ Hline), bind_Ok.
  destruct (starts_table line) eqn:Hstart.
  - destruct (collect_table_total (S (length lines)) lines i [])
      as (j & tl & Hrun & _ & Hadv); [lia|].
    rewrite Hrun, bind_Ok.
    destruct (emit_table_total tl result_lines) as (out & Hemit).
    rewrite Hemit, bind_Ok.
    specialize (Hadv line Hline (starts_table_continues line Hstart)).
    apply IH. lia.
  - apply IH. lia.
Qed.

(** A larger bound changes nothing. *)
Lemma scan_lines_more_fuel (fuel k : nat) (lines : list string) (i : nat)
    (result_lines out : list string) :
  scan_lines fuel lines i result_lines = Ok out ->
  scan_lines (fuel + k) lines i result_lines = Ok out.
Proof.
  revert i result_lines.
  induction fuel as [|fuel IH]; intros i result_lines; [discriminate|].
  cbn [scan_lines Nat.add].
  destruct (i <? length lines); [|trivial].
  destruct (getitem lines i) as [line|e]; [|trivial].
  rewrite !bind_Ok.
  destruct (starts_table line); [|apply IH].
  destruct (collect_table (S (length lines)) lines i []) as [[j tl]|e]; [|trivial].
  rewrite !bind_Ok.
  destruct (emit_table tl result_lines) as [out'|e]; [|trivial].
  rewrite !bind_Ok. apply IH.
Qed.

(** Lines that open no table are copied. *)
Lemma scan_lines_plain_prefix (plain before rest acc : list string) (fuel : nat) :
  Forall (fun l => starts_table l = false) plain ->
  scan_lines (length plain + fuel) (before ++ plain ++ rest) (length before) acc
  = scan_lines fuel (before ++ plain ++ rest) (length before + length plain)
      (acc ++ plain).
Proof.
  intros Hplain. revert before acc.
  induction Hplain as [|line plain Hline _ IH]; intros before acc.
  - cbn [length Nat.add]. now rewrite Nat.add_0_r, app_nil_r.
  - cbn [length Nat.add scan_lines]. rewrite <- app_comm_cons.
    rewrite ltb_middle, getitem_middle, bind_Ok, Hline.
    rewrite (cons_middle line before), app_assoc.
    replace (length before + 1) with (length (before ++ [line]))
      by (rewrite length_app; reflexivity).
    rewrite IH, length_app. cbn [length].
    rewrite <- (app_assoc acc [line] plain). cbn [app].
    f_equal. lia.
Qed.

Lemma scan_lines_at_end (fuel : nat) (lines acc : list string) :
  scan_lines (S fuel) lines (length lines) acc = Ok acc.
Proof. cbn [scan_lines]. now rewrite Nat.ltb_irrefl. Qed.

Lemma scan_all_plain (lines : list string) :
  Forall (fun l => starts_table l = false) lines ->
  scan_all lines = Ok lines.
Proof.
  intros Hplain. unfold scan_all.
  pose proof (scan_lines_plain_prefix lines [] [] [] 1 Hplain) as H.
  rewrite app_nil_r in H. cbn [app length Nat.add] in H.
  replace (S (length lines)) with (length lines + 1) by lia.
  rewrite H. apply scan_lines_at_end.
Qed.

(** One iteration of the scanning loop over a table block. *)
Lemma scan_lines_block (fuel : nat) (pre block post acc acc' : list string)
    (first : string) (block' : list string) :
  block = first :: block' ->
  starts_table first = true ->
  Forall (fun l => continues_table l = true) block ->
  stops_at post ->
  emit_table (kept_rows block) acc = Ok acc' ->
  scan_lines (S fuel) (pre ++ block ++ post) (length pre) acc
  = scan_lines fuel (pre ++ block ++ post) (length pre + length block) acc'.
Proof.
  intros Hblock Hstart Hcont Hpost Hemit.
  cbn [scan_lines].
  rewrite (collect_table_run block pre post [] _ Hcont Hpost).
  - subst block. rewrite <- app_comm_cons.
    rewrite ltb_middle, getitem_middle, bind_Ok, Hstart, bind_Ok.
    rewrite app_nil_l, Hemit, bind_Ok. reflexivity.
  - rewrite !length_app. lia.
Qed.

(** ** Blocks of separator rows *)

Lemma kept_rows_separators (block : list string) :
  Forall separator_line block -> kept_rows block = [].
Proof.
  induction 1 as [|line block [_ Hsep] _ IH]; [reflexivity|].
  now rewrite kept_rows_cons, Hsep, IH.
Qed.

Lemma separator_lines_continue (block : list string) :
  Forall separator_line block ->
  Forall (fun l => continues_table l = true) block.
Proof. intros H. eapply Forall_impl; [exact H|]. now intros line [Hc _]. Qed.

(** C1 as the claim words it: a block of separator rows alone is not written
    as two fence lines; nothing is written for it. *)
Lemma collapsed_block_has_no_fence :
  translate_markdown_for_slack "|---|" = Ok "" /\
  translate_markdown_for_slack "|---|" <> Ok (text_of ["```"; "```"]).
Proof. split; [vm_compute; reflexivity | vm_compute; discriminate]. Qed.

(** C1, amended. For every detected table block of which no row remains
    after the separator rows are dropped, the scanning loop passes over the
    block and writes nothing for it, no fence line either: the lines written
    so far stay as they are, and between lines that open no table the
    output is these lines alone. *)
Theorem collapsed_block_writes_nothing (first : string) (block' post : list string) :
  let block := first :: block' in
  starts_table first = true ->
  Forall separator_line block ->
  stops_at post ->
  (forall fuel pre acc,
     scan_lines (S fuel) (pre ++ block ++ post) (length pre) acc
     = scan_lines fuel (pre ++ block ++ post) (length pre + length block) acc) /\
  (forall pre,
     Forall (fun l => starts_table l = false) pre ->
     Forall (fun l => starts_table l = false) post ->
     scan_all (pre ++ block ++ post) = Ok (pre ++ post)).
Proof.
  intros block Hstart Hsep Hpost.
  assert (Hstep : forall fuel pre acc,
     scan_lines (S fuel) (pre ++ block ++ post) (length pre) acc
     = scan_lines fuel (pre ++ block ++ post) (length pre + length block) acc).
  { intros fuel pre acc.
    apply (scan_lines_block fuel pre block post acc acc first block');
      [reflexivity | assumption | now apply separator_lines_continue
      | assumption |].
    now rewrite kept_rows_separators. }
  split; [exact Hstep|].
  intros pre Hpre Hplain. unfold scan_all.
  replace (S (length (pre ++ block ++ post)))
    with (length pre + S (length post + S (length block')))
    by (rewrite !length_app; unfold block; cbn [length]; lia).
  pose proof (scan_lines_plain_prefix pre [] (block ++ post) []
                (S (length post + S (length block'))) Hpre) as H1.
  cbn [app length Nat.add] in H1. rewrite H1, Hstep.
  pose proof (scan_lines_plain_prefix post (pre ++ block) [] pre
                (S (length block')) Hplain) as H2.
  rewrite app_nil_r, <- app_assoc, length_app in H2. rewrite H2.
  replace (length pre + length block + length post)
    with (length (pre ++ block ++ post)) by (rewrite !length_app; lia).
  apply scan_lines_at_end.
Qed.

Lemma collapsed_block_writes_nothing_witness :
  scan_all (["intro"] ++ ["|---|"; "| :-- | --: |"] ++ ["outro"])
  = Ok (["intro"] ++ ["outro"]).
Proof.
  refine (proj2 (collapsed_block_writes_nothing "|---|" ["| :-- | --: |"] ["outro"]
                   _ _ _) ["intro"] _ _).
  - vm_compute. reflexivity.
  - repeat constructor.
  - vm_compute. reflexivity.
  - repeat constructor.
  - repeat constructor.
Defined.

(** ** The continuation test of the collecting loop *)

(** C2. The collecting loop goes on over a line whose trimmed form starts
    with [|] and does not end with it: after the row [|a|], the line [|b] is
    taken into the block, where it makes a row without cells, and does not
    reach the output. *)
Theorem open_row_is_absorbed :
  starts_table "|b" = false /\
  continues_table "|b" = true /\
  translate_markdown_for_slack (text_of ["|a|"; "|b"])
  = Ok (text_of ["```"; "a"; "-"; ""; "```"]).
Proof. repeat split; vm_compute; reflexivity. Qed.

(** ** Strings *)

Lemma append_cons (c : ascii) (s t : string) :
  String c s +:+ t = String c (s +:+ t).
Proof. reflexivity. Qed.

Lemma append_nil_l (s : string) : "" +:+ s = s.
Proof. reflexivity. Qed.

Lemma append_nil_r (s : string) : s +:+ "" = s.
Proof.
  induction s as [|c s IH]; [reflexivity|]. now rewrite append_cons, IH.
Qed.

Lemma append_assoc (a b c : string) : (a +:+ b) +:+ c = a +:+ b +:+ c.
Proof.
  induction a as [|x a IH]; [reflexivity|]. now rewrite !append_cons, IH.
Qed.

Lemma length_append (a b : string) :
  String.length (a +:+ b) = String.length a + String.length b.
Proof.
  induction a as [|x a IH]; [reflexivity|].
  rewrite append_cons. simpl. now rewrite IH.
Qed.

Lemma startswith_append (p r : string) : startswith (p +:+ r) p = true.
Proof.
  induction p as [|a p IH]; [reflexivity|].
  rewrite append_cons. simpl. now rewrite Ascii.eqb_refl, IH.
Qed.

Lemma startswith_inv (s p : string) :
  startswith s p = true -> exists r, s = p +:+ r.
Proof.
  revert s. induction p as [|a p IH]; intros s H; simpl in *.
  - now exists s.
  - destruct s as [|b s]; [discriminate|].
    apply andb_true_iff in H as [Hab Hp].
    apply Ascii.eqb_eq in Hab as ->.
    destruct (IH s Hp) as [r ->]. now exists r.
Qed.

Lemma contains_here (s p : string) : startswith s p = true -> contains s p = true.
Proof. intros H. destruct s; simpl in *; now rewrite H. Qed.

Lemma contains_later (a s p : string) :
  contains s p = true -> contains (a +:+ s) p = true.
Proof.
  intros H. induction a as [|x a IH]; [assumption|].
  rewrite append_cons. simpl. rewrite IH. apply orb_true_r.
Qed.

Lemma contains_middle (a p b : string) : contains (a +:+ p +:+ b) p = true.
Proof. apply contains_later, contains_here, startswith_append. Qed.

Lemma contains_inv (s p : string) :
  contains s p = true -> exists a b, s = a +:+ p +:+ b.
Proof.
  induction s as [|c s IH]; simpl; intros H.
  - rewrite orb_false_r in H. apply startswith_inv in H as [r ->].
    now exists "", r.
  - apply orb_true_iff in H as [H|H].
    + apply startswith_inv in H as [r ->]. now exists "", r.
    + destruct (IH H) as (a & b & ->). now exists (String c a), b.
Qed.

Lemma has_bold_pair_contains (s : string) :
  has_bold_pair s -> contains s "**" = true.
Proof. intros (a & b & c & ->). apply contains_middle. Qed.

Lemma split_nonempty (sep : ascii) (s : string) : split sep s <> [].
Proof.
  induction s as [|c s IH]; simpl; [discriminate|].
  destruct (Ascii.eqb c sep); [discriminate|].
  now destruct (split sep s).
Qed.

Lemma join_cons (sep x y : string) (l : list string) :
  join sep (x :: y :: l) = x +:+ sep +:+ join sep (y :: l).
Proof. reflexivity. Qed.

(** Joining the lines of a text gives the text back. *)
Lemma join_split (s : string) : join nl (split newline s) = s.
Proof.
  induction s as [|c s IH]; [reflexivity|].
  cbn [split]. pose proof (split_nonempty newline s) as Hne.
  destruct (Ascii.eqb_spec c newline) as [->|Hc].
  - destruct (split newline s) as [|h t]; [congruence|].
    now rewrite join_cons, IH.
  - destruct (split newline s) as [|h t]; [congruence|].
    rewrite <- IH. destruct t; reflexivity.
Qed.

(** ** The emphasis rewrite *)

Import Re.

Lemma startswith_two_stars_head (a : ascii) (content rest : string) :
  startswith (String a (content +:+ "**" +:+ rest)) "**"
  = startswith (String a (content +:+ "*")) "**".
Proof. destruct content; reflexivity. Qed.

Lemma slice_two_stars (s : string) :
  startswith s "**" = true -> s = "**" +:+ slice_from 2 s.
Proof.
  intros H. apply startswith_inv in H as [r ->]. reflexivity.
Qed.

Lemma find_close_cons (a : ascii) (t : string) :
  find_close (String a t)
  = if startswith (String a t) "**" then Some ("", slice_from 2 (String a t))
    else if Ascii.eqb a newline then None
         else '(content, rest) ← find_close t; Some (String a content, rest).
Proof. reflexivity. Qed.

Lemma contains_nl_cons (a : ascii) (s : string) :
  contains (String a s) nl = Ascii.eqb a newline || contains s nl.
Proof.
  unfold nl. cbn [contains startswith].
  now rewrite andb_true_r, Ascii.eqb_sym.
Qed.

Lemma find_close_sound (t content rest : string) :
  find_close t = Some (content, rest) ->
  t = content +:+ "**" +:+ rest /\
  contains content nl = false /\
  contains (content +:+ "*") "**" = false.
Proof.
  revert content rest. induction t as [|a t IH]; intros content rest H.
  - discriminate.
  - rewrite find_close_cons in H.
    destruct (startswith (String a t) "**") eqn:Hstart.
    + injection H as <- <-. split; [|split; reflexivity].
      now apply slice_two_stars.
    + destruct (Ascii.eqb a newline) eqn:Hnl; [discriminate|].
      destruct (find_close t) as [[content' rest']|] eqn:Hrec; [|discriminate].
      injection H as <- <-.
      destruct (IH _ _ eq_refl) as (-> & Hno_nl & Hfirst).
      split; [reflexivity|]. split.
      * now rewrite contains_nl_cons, Hnl, Hno_nl.
      * change (String a content' +:+ "*") with (String a (content' +:+ "*")).
        cbn [contains]. rewrite Hfirst.
        rewrite <- (startswith_two_stars_head a content' rest'), Hstart.
        reflexivity.
Qed.

Lemma find_close_complete (content rest : string) :
  contains content nl = false ->
  contains (content +:+ "*") "**" = false ->
  find_close (content +:+ "**" +:+ rest) = Some (content, rest).
Proof.
  induction content as [|a content IH]; intros Hno_nl Hfirst.
  - reflexivity.
  - change (String a content +:+ "**" +:+ rest)
      with (String a (content +:+ "**" +:+ rest)).
    change (String a content +:+ "*") with (String a (content +:+ "*")) in Hfirst.
    rewrite contains_nl_cons in Hno_nl. cbn [contains] in Hfirst.
    apply orb_false_iff in Hno_nl as [Hhead Hno_nl].
    apply orb_false_iff in Hfirst as [Hstart Hfirst].
    rewrite find_close_cons, startswith_two_stars_head, Hstart.
    rewrite Hhead, (IH Hno_nl Hfirst). reflexivity.
Qed.

(** The pattern matches at the start of [s] exactly when [s] starts with a
    bold span, and then yields the span's content and what follows it. *)
Lemma match_bold_spec (s content rest : string) :
  match_bold s = Some (content, rest) <-> span_at s content rest.
Proof.
  unfold match_bold, span_at. split.
  - destruct (startswith s "**") eqn:Hstart; [|discriminate].
    intros H. apply find_close_sound in H as (Heq & Hno_nl & Hfirst).
    rewrite (slice_two_stars s Hstart), Heq. auto.
  - intros (-> & Hno_nl & Hfirst).
    change (startswith ("**" +:+ content +:+ "**" +:+ rest) "**") with true.
    change (slice_from 2 ("**" +:+ content +:+ "**" +:+ rest))
      with (content +:+ "**" +:+ rest).
    now apply find_close_complete.
Qed.

Lemma sub_scan_skip (x rest : string) :
  sub_scan (x +:+ rest) (String.length x) = sub_scan rest 0.
Proof. induction x as [|c x IH]; [reflexivity | exact IH]. Qed.

Lemma sub_scan_try (c : ascii) (s : string) :
  sub_scan (String c s) 0
  = match match_bold (String c s) with
    | Some (content, _) =>
        "*" +:+ content +:+ "*" +:+ sub_scan s (String.length content + 3)
    | None => String c (sub_scan s 0)
    end.
Proof. reflexivity. Qed.

Lemma sub_bold_match (s content rest : string) :
  match_bold s = Some (content, rest) ->
  sub_bold s = "*" +:+ content +:+ "*" +:+ sub_bold rest.
Proof.
  intros H. pose proof H as Hspan. apply match_bold_spec in Hspan as (Heq & _).
  unfold sub_bold. rewrite Heq at 1. rewrite Heq in H.
  change ("**" +:+ content +:+ "**" +:+ rest)
    with (String "*" (String "*" (content +:+ "**" +:+ rest))) in *.
  rewrite sub_scan_try, H.
  replace (String "*" (content +:+ "**" +:+ rest))
    with ((String "*" content +:+ "**") +:+ rest)
    by (now rewrite append_assoc, append_cons).
  replace (String.length content + 3)
    with (String.length (String "*" content +:+ "**"))
    by (rewrite length_append; simpl; lia).
  now rewrite sub_scan_skip.
Qed.

Lemma sub_bold_char (c : ascii) (s : string) :
  match_bold (String c s) = None ->
  sub_bold (String c s) = String c (sub_bold s).
Proof. intros H. unfold sub_bold. now rewrite sub_scan_try, H. Qed.

Lemma span_at_unique (s content rest content' rest' : string) :
  span_at s content rest -> span_at s content' rest' ->
  content = content' /\ rest = rest'.
Proof.
  intros H H'. apply match_bold_spec in H, H'.
  rewrite H in H'. now injection H' as <- <-.
Qed.

Lemma span_at_longer (s content rest : string) :
  span_at s content rest -> String.length rest < String.length s.
Proof.
  intros (-> & _). rewrite !length_append. simpl. lia.
Qed.

Lemma bold_rewrite_sub_bold (n : nat) (s : string) :
  String.length s <= n -> bold_rewrite s (sub_bold s).
Proof.
  revert s. induction n as [|n IH]; intros s Hlen.
  - destruct s; [apply rewrite_end | simpl in Hlen; lia].
  - destruct s as [|c s]; [apply rewrite_end|].
    destruct (match_bold (String c s)) as [[content rest]|] eqn:Hmatch.
    + rewrite (sub_bold_match _ _ _ Hmatch).
      apply match_bold_spec in Hmatch.
      apply (rewrite_span _ content rest); [assumption|].
      apply IH. apply span_at_longer in Hmatch. lia.
    + rewrite (sub_bold_char _ _ Hmatch).
      apply rewrite_char.
      * intros content rest Hspan. apply match_bold_spec in Hspan. congruence.
      * apply IH. simpl in Hlen. lia.
Qed.

Lemma bold_rewrite_functional (s out out' : string) :
  bold_rewrite s out -> bold_rewrite s out' -> out = out'.
Proof.
  intros H. revert out'.
  induction H as [|s content rest out Hspan _ IH|c s out Hno _ IH];
    intros out' H'.
  - inversion H' as [|s0 content rest out Hspan|]; subst; [reflexivity|].
    destruct Hspan as [Heq _]. discriminate.
  - inversion H' as [|s0 content' rest' out0 Hspan' Hrest'|c s0 out0 Hno Hrest'];
      subst.
    + destruct Hspan as [Heq _]. discriminate.
    + destruct (span_at_unique _ _ _ _ _ Hspan Hspan') as [<- <-].
      now rewrite (IH _ Hrest').
    + now apply Hno in Hspan.
  - inversion H' as [|s0 content' rest' out0 Hspan' Hrest'|c0 s0 out0 Hno' Hrest'];
      subst.
    + now apply Hno in Hspan'.
    + now rewrite (IH _ Hrest').
Qed.

(** C3 as the claim words it: a span whose content holds a newline is not
    rewritten. *)
Lemma span_over_newline_is_kept :
  sub_bold (text_of ["**a"; "b**"]) = text_of ["**a"; "b**"] /\
  sub_bold (text_of ["**a"; "b**"]) <> text_of ["*a"; "b*"].
Proof. split; [vm_compute; reflexivity | vm_compute; discriminate]. Qed.

(** C3, amended. The emphasis rewrite returns the input in which, from left
    to right, every bold span [**content**], closed by the first [**] after
    its opening one and with a content that is empty or made of any
    characters but the newline, is replaced by [*content*], and every
    other character is kept. *)
Theorem emphasis_rewrite_spans (s out : string) :
  bold_rewrite s out <-> sub_bold s = out.
Proof.
  split.
  - intros H. eapply bold_rewrite_functional; [|exact H].
    now apply (bold_rewrite_sub_bold (String.length s)).
  - intros <-. now apply (bold_rewrite_sub_bold (String.length s)).
Qed.

(** ** Texts without a bold span *)

Lemma sub_scan_no_match (t : string) :
  (forall a t', t = a +:+ t' -> match_bold t' = None) ->
  sub_scan t 0 = t.
Proof.
  induction t as [|c t IH]; intros Hnone; [reflexivity|].
  rewrite sub_scan_try, (Hnone "" (String c t) eq_refl).
  f_equal. apply IH. intros a t' ->.
  now apply (Hnone (String c a) t').
Qed.

Lemma sub_bold_no_pair (s : string) : ~ has_bold_pair s -> sub_bold s = s.
Proof.
  intros Hno. apply sub_scan_no_match. intros a t' ->.
  destruct (match_bold t') as [[content rest]|] eqn:Hmatch; [|reflexivity].
  exfalso. apply Hno. apply match_bold_spec in Hmatch as (-> & _).
  now exists a, content, rest.
Qed.

(** C6 as the claim words it: a line that starts and ends with [|] only
    once trimmed still opens a table. *)
Lemma untrimmed_test_misses_table :
  ~ has_bold_pair " |a|" /\
  Forall (fun line => startswith line "|" && endswith line "|" = false)
         (split newline " |a|") /\
  translate_markdown_for_slack " |a|" = Ok (text_of ["```"; "a"; "```"]) /\
  translate_markdown_for_slack " |a|" <> Ok " |a|".
Proof.
  split; [|split; [|split]].
  - intros H. apply has_bold_pair_contains in H. vm_compute in H. discriminate.
  - repeat constructor.
  - vm_compute. reflexivity.
  - vm_compute. discriminate.
Qed.

(** C6, amended. A text that holds no pair of [**] and no line whose
    trimmed form both starts and ends with [|] is translated to itself. *)
Theorem plain_text_is_unchanged (s : string) :
  ~ has_bold_pair s ->
  Forall (fun line =>
            startswith (strip line) "|" && endswith (strip line) "|" = false)
         (split newline s) ->
  translate_markdown_for_slack s = Ok s.
Proof.
  intros Hno Hlines.
  unfold translate_markdown_for_slack, translate_with_fuel, line_count.
  rewrite (sub_bold_no_pair s Hno).
  fold (scan_all (split newline s)).
  rewrite scan_all_plain, bind_Ok; [now rewrite join_split|].
  eapply Forall_impl; [exact Hlines|].
  intros line H. unfold starts_table.
  now rewrite <- andb_assoc, H, andb_false_r.
Qed.

Lemma plain_text_is_unchanged_witness :
  translate_markdown_for_slack (text_of ["a *b* c"; " x | y "; "| open"; ""])
  = Ok (text_of ["a *b* c"; " x | y "; "| open"; ""]).
Proof.
  apply plain_text_is_unchanged.
  - intros H. apply has_bold_pair_contains in H. vm_compute in H. discriminate.
  - repeat constructor.
Defined.

(** Where no line opens a table, the translation is the emphasis rewrite. *)
Lemma translation_without_tables (text : string) :
  Forall (fun line => starts_table line = false)
         (split newline (sub_bold text)) ->
  translate_markdown_for_slack text = Ok (sub_bold text).
Proof.
  intros Hlines.
  unfold translate_markdown_for_slack, translate_with_fuel, line_count.
  fold (scan_all (split newline (sub_bold text))).
  now rewrite scan_all_plain, bind_Ok, join_split.
Qed.

(** ** The test that opens a table *)

Lemma lstrip_suffix (s : string) : exists a, s = a +:+ lstrip s.
Proof.
  induction s as [|c s [a IH]]; [now exists ""|].
  cbn [lstrip]. destruct (isspace c); [|now exists ""].
  exists (String c a). now rewrite append_cons, <- IH.
Qed.

Lemma rstrip_head (s : string) (c : ascii) (r : string) :
  rstrip s = String c r -> exists s', s = String c s'.
Proof.
  destruct s as [|d s]; [discriminate|]. cbn [rstrip].
  destruct (rstrip s); [destruct (isspace d); [discriminate|]|];
    intros H; injection H as -> _; now exists s.
Qed.

Lemma strip_starts_contains (line : string) :
  startswith (strip line) "|" = true -> contains line "|" = true.
Proof.
  unfold strip. intros H.
  destruct (rstrip (lstrip line)) as [|c r] eqn:Hr; [discriminate|].
  cbn [startswith] in H. rewrite andb_true_r in H.
  apply Ascii.eqb_eq in H as <-.
  destruct (rstrip_head _ _ _ Hr) as [s' Hs'].
  destruct (lstrip_suffix line) as [a Ha]. rewrite Ha, Hs'.
  apply contains_later, contains_here. cbn [startswith].
  now rewrite Ascii.eqb_refl.
Qed.

(** A line opens a table exactly when its trimmed form starts and ends with
    the pipe. *)
Lemma starts_table_spec (line : string) :
  starts_table line = true <->
  startswith (strip line) "|" = true /\ endswith (strip line) "|" = true.
Proof.
  unfold starts_table. rewrite !andb_true_iff. split.
  - now intros [[_ Hs] He].
  - intros [Hs He]. repeat split; [now apply strip_starts_contains|..];
      assumption.
Qed.

(** ** Unclosed markers *)

Lemma tries_at_skip_le (s : string) (skip n : nat) :
  tries_at s skip n = true -> skip <= n.
Proof.
  revert s skip. induction n as [|n IH]; intros s skip H.
  - cbn [tries_at] in H. apply Nat.eqb_eq in H. lia.
  - destruct skip as [|k]; [lia|].
    cbn [tries_at] in H. destruct s as [|c s]; [discriminate|].
    apply IH in H. lia.
Qed.

Lemma append_prefix (x a b y : string) :
  a +:+ b = x +:+ y ->
  String.length x <= String.length a ->
  exists r, a = x +:+ r /\ y = r +:+ b.
Proof.
  revert a. induction x as [|c x IH]; intros a Heq Hlen.
  - exists a. now rewrite append_nil_l in *.
  - destruct a as [|d a]; [simpl in Hlen; lia|].
    rewrite !append_cons in Heq. injection Heq as -> Heq.
    destruct (IH a Heq) as (r & -> & ->); [simpl in Hlen; lia|].
    now exists r.
Qed.

(** A match that ends within [s] is a match of [s] alone, and a match of
    [s] alone is a match whatever follows [s]. *)
Lemma match_bold_within (s rest content r : string) :
  match_bold (s +:+ rest) = Some (content, r) ->
  String.length content + 4 <= String.length s ->
  exists r', match_bold s = Some (content, r') /\ r = r' +:+ rest.
Proof.
  intros Hmatch Hlen. apply match_bold_spec in Hmatch as (Heq & Hnl & Hfirst).
  replace ("**" +:+ content +:+ "**" +:+ r)
    with (("**" +:+ content +:+ "**") +:+ r) in Heq
    by (now rewrite !append_assoc).
  apply append_prefix in Heq as (r' & -> & ->).
  - exists r'. split; [|reflexivity]. apply match_bold_spec.
    split; [|now split]. now rewrite !append_assoc.
  - rewrite !length_append. simpl. lia.
Qed.

Lemma match_bold_extends (s rest content r : string) :
  match_bold s = Some (content, r) ->
  match_bold (s +:+ rest) = Some (content, r +:+ rest).
Proof.
  intros Hmatch. apply match_bold_spec in Hmatch as (-> & Hnl & Hfirst).
  apply match_bold_spec. split; [|now split]. now rewrite !append_assoc.
Qed.

(** Where the scan tries the pattern at the end of [pre], what comes before
    is rewritten as [pre] alone, and what follows as it is alone. *)
Lemma tries_at_split (pre rest : string) (skip : nat) :
  tries_at (pre +:+ rest) skip (String.length pre) = true ->
  sub_scan (pre +:+ rest) skip = sub_scan pre skip +:+ sub_scan rest 0.
Proof.
  revert skip. induction pre as [|c pre IH]; intros skip H.
  - cbn [tries_at String.length] in H.
    apply Nat.eqb_eq in H as ->. reflexivity.
  - rewrite append_cons in *. cbn [String.length tries_at] in H.
    destruct skip as [|k]; [|cbn [sub_scan]; now apply IH].
    rewrite !sub_scan_try. rewrite <- append_cons in *.
    destruct (match_bold (String c pre +:+ rest)) as [[content r]|] eqn:Hmatch.
    + pose proof (tries_at_skip_le _ _ _ H) as Hle.
      destruct (match_bold_within _ _ _ _ Hmatch) as (r' & -> & _);
        [simpl; lia|].
      rewrite (IH _ H). now rewrite !append_assoc.
    + destruct (match_bold (String c pre)) as [[content r]|] eqn:Hpre.
      * apply (match_bold_extends _ rest) in Hpre. congruence.
      * now rewrite (IH _ H).
Qed.





(** ** Totality *)

(** C8. The translation returns a text for every input and raises nothing:
    neither of its loops exhausts its bound, whatever larger bound is given
    the result is the same, and the table formatter returns lines for every
    list of rows. *)
Theorem translation_is_total (text : string) :
  exists out,
    translate_markdown_for_slack text = Ok out /\
    (forall k, translate_with_fuel (S (line_count text) + k) text = Ok out) /\
    (forall table_lines,
       exists formatted, format_table_for_slack table_lines = Ok formatted).
Proof.
  unfold translate_markdown_for_slack, translate_with_fuel, line_count.
  set (lines := split newline (sub_bold text)).
  destruct (scan_lines_total (S (length lines)) lines 0 []) as [out Hout]; [lia|].
  exists (join nl out). rewrite Hout, bind_Ok. split; [reflexivity|]. split.
  - intros k. now rewrite (scan_lines_more_fuel _ k _ _ _ _ Hout), bind_Ok.
  - intros table_lines. rewrite format_table_for_slack_spec. eauto.
Qed.

(** * Further properties of the code *)

(** ** What a rendered table looks like *)

Lemma contains_char_append (c : ascii) (a b : string) :
  contains (a +:+ b) (String c "")
  = contains a (String c "") || contains b (String c "").
Proof.
  induction a as [|x a IH].
  - rewrite append_nil_l. reflexivity.
  - rewrite append_cons. cbn [contains startswith].
    rewrite IH. now rewrite !andb_true_r, orb_assoc.
Qed.

Lemma contains_char_cons (c x : ascii) (s : string) :
  contains (String x s) (String c "")
  = Ascii.eqb c x || contains s (String c "").
Proof. cbn [contains startswith]. now rewrite andb_true_r. Qed.

Lemma remove_char_clean (c : ascii) (s : string) :
  contains (remove_char c s) (String c "") = false.
Proof.
  induction s as [|x s IH]; [reflexivity|]. cbn [remove_char].
  destruct (Ascii.eqb x c) eqn:Hx; [exact IH|].
  now rewrite contains_char_cons, Ascii.eqb_sym, Hx, IH.
Qed.

Lemma repeat_char_other (c d : ascii) (n : nat) :
  Ascii.eqb c d = false -> contains (repeat_char d n) (String c "") = false.
Proof.
  intros Hcd. induction n as [|n IH]; [reflexivity|].
  cbn [repeat_char]. now rewrite contains_char_cons, Hcd, IH.
Qed.

Lemma join_without_char (c : ascii) (sep : string) (l : list string) :
  contains sep (String c "") = false ->
  Forall (fun s => contains s (String c "") = false) l ->
  contains (join sep l) (String c "") = false.
Proof.
  intros Hsep Hl. induction Hl as [|x l Hx Hl IH]; [reflexivity|].
  destruct l as [|y l]; [exact Hx|].
  now rewrite join_cons, !contains_char_append, Hx, Hsep, IH.
Qed.

Lemma render_row_without_star (ws : list nat) (row : list string) :
  contains (render_row ws row) "*" = false.
Proof.
  unfold render_row. apply join_without_char; [reflexivity|].
  revert ws. induction row as [|cell row IH]; intros ws; [constructor|].
  destruct ws as [|w ws]; [constructor|].
  cbn [zip_with]. constructor; [|apply IH].
  unfold ljust. rewrite contains_char_append, remove_char_clean.
  now apply repeat_char_other.
Qed.

Lemma render_separator_without_star (ws : list nat) :
  contains (render_separator ws) "*" = false.
Proof.
  unfold render_separator. apply join_without_char; [reflexivity|].
  induction ws as [|w ws IH]; [constructor|].
  rewrite fmap_cons. constructor; [|exact IH].
  now apply repeat_char_other.
Qed.

(** X1. For every list of table lines, the formatter returns one line per
    row, and one more (the rule) when there are several rows; no returned
    line holds an asterisk, whatever the cells held. *)
Theorem formatted_table_shape (table_lines : list string) :
  exists formatted,
    format_table_for_slack table_lines = Ok formatted /\
    length formatted
    = length table_lines + (if 1 <? length table_lines then 1 else 0) /\
    Forall (fun line => contains line "*" = false) formatted.
Proof.
  rewrite format_table_for_slack_spec. eexists. split; [reflexivity|].
  destruct table_lines as [|first rest]; [split; [reflexivity|constructor]|].
  rewrite fmap_cons. unfold render_table.
  set (ws := width_of _ <$> seq 0 _). split.
  - destruct rest as [|second rest]; [reflexivity|].
    rewrite fmap_cons. cbn [length app Nat.ltb Nat.leb].
    rewrite !length_fmap. cbn [length]. rewrite length_fmap. lia.
  - constructor; [apply render_row_without_star|].
    apply Forall_app. split.
    + destruct (cells_of <$> rest); constructor;
        [apply render_separator_without_star | constructor].
    + apply Forall_fmap, Forall_forall. intros row _.
      apply render_row_without_star.
Qed.

Lemma length_repeat_char (c : ascii) (n : nat) :
  String.length (repeat_char c n) = n.
Proof. induction n as [|n IH]; [reflexivity|]. simpl. now rewrite IH. Qed.

Lemma length_ljust (s : string) (w : nat) :
  String.length (ljust s w) = Nat.max (String.length s) w.
Proof. unfold ljust. rewrite length_append, length_repeat_char. lia. Qed.

Lemma length_join (sep : string) (l : list string) :
  String.length (join sep l)
  = sum_list (String.length <$> l) + String.length sep * (length l - 1).
Proof.
  induction l as [|x l IH]; [simpl; lia|].
  destruct l as [|y l]; [simpl; lia|].
  rewrite join_cons, !length_append, IH.
  cbn [fmap list_fmap sum_list_with length id]. lia.
Qed.

Lemma padded_cells_lengths (ws : list nat) (row : list string) :
  length ws <= length row ->
  (forall c cell w,
     row !! c = Some cell -> ws !! c = Some w -> display_length cell <= w) ->
  String.length
    <$> zip_with (fun cell w => ljust (remove_char "*" cell) w) row ws
  = ws.
Proof.
  revert row. induction ws as [|w ws IH]; intros row Hlen Hfit.
  - now rewrite zip_with_nil_r.
  - destruct row as [|cell row]; [simpl in Hlen; lia|].
    cbn [zip_with]. rewrite fmap_cons, length_ljust. f_equal.
    + specialize (Hfit 0 cell w eq_refl eq_refl).
      unfold display_length in Hfit. lia.
    + apply IH; [simpl in Hlen; lia|].
      intros c cell' w' Hc Hw. now apply (Hfit (S c)).
Qed.

Lemma width_of_ge (rows : list (list string)) (row : list string)
    (c : nat) (cell : string) :
  row ∈ rows -> row !! c = Some cell -> display_length cell <= width_of rows c.
Proof.
  intros Hrow Hcell. unfold width_of. apply max_list_elem_of_le.
  apply list_elem_of_omap. exists row. split; [assumption|].
  now rewrite Hcell.
Qed.

Lemma render_row_length (rows : list (list string)) (n : nat) (row : list string) :
  row ∈ rows ->
  n <= length row ->
  String.length (render_row (width_of rows <$> seq 0 n) row)
  = sum_list (width_of rows <$> seq 0 n) + 3 * (n - 1).
Proof.
  intros Hrow Hlen. unfold render_row.
  rewrite length_join, padded_cells_lengths.
  - rewrite length_zip_with_r; rewrite length_fmap, length_seq;
      [reflexivity | lia].
  - now rewrite length_fmap, length_seq.
  - intros c cell w Hcell Hw.
    rewrite list_lookup_fmap in Hw.
    destruct (seq 0 n !! c) as [c'|] eqn:Hc; [|discriminate].
    apply lookup_seq in Hc as [-> _]. injection Hw as <-.
    now apply (width_of_ge rows row).
Qed.

Lemma render_separator_length (ws : list nat) :
  String.length (render_separator ws) = sum_list ws + 3 * (length ws - 1).
Proof.
  unfold render_separator. rewrite length_join, length_fmap.
  f_equal. f_equal. rewrite <- list_fmap_compose.
  induction ws as [|w ws IH]; [reflexivity|].
  rewrite fmap_cons, IH. cbn [compose]. now rewrite length_repeat_char.
Qed.

(** X2. When no row of a table has fewer cells than its first row, all
    lines the formatter returns, the rule included, have the same length:
    the sum of the column widths and three characters between neighbouring
    columns. *)
Theorem formatted_table_is_aligned (first : string) (rest : list string) :
  let rows := cells_of <$> (first :: rest) in
  let num_cols := length (cells_of first) in
  Forall (fun row => num_cols <= length row) rows ->
  exists col_widths formatted,
    column_widths rows num_cols = Ok col_widths /\
    format_table_for_slack (first :: rest) = Ok formatted /\
    Forall (fun line =>
              String.length line = sum_list col_widths + 3 * (num_cols - 1))
           formatted.
Proof.
  intros rows num_cols Hfull.
  exists (width_of rows <$> seq 0 num_cols). eexists.
  split; [apply column_widths_spec|].
  split; [apply format_table_for_slack_spec|].
  fold rows. unfold rows at 1. rewrite fmap_cons. unfold render_table.
  fold num_cols. change (cells_of first :: (cells_of <$> rest)) with rows.
  assert (Hrows : forall row, row ∈ rows ->
            String.length (render_row (width_of rows <$> seq 0 num_cols) row)
            = sum_list (width_of rows <$> seq 0 num_cols) + 3 * (num_cols - 1)).
  { intros row Hrow. apply render_row_length; [assumption|].
    now apply (proj1 (Forall_forall _ _) Hfull). }
  constructor; [apply Hrows; left|].
  apply Forall_app. split.
  - destruct rest; constructor; [|constructor].
    now rewrite render_separator_length, length_fmap, length_seq.
  - apply Forall_fmap, Forall_forall. intros row Hrow.
    apply Hrows. now right.
Qed.

Lemma formatted_table_is_aligned_witness :
  exists col_widths formatted,
    column_widths (cells_of <$> ["| Name | Age |"; "| *Bob* | 30 | x |"]) 2
    = Ok col_widths /\
    format_table_for_slack ["| Name | Age |"; "| *Bob* | 30 | x |"]
    = Ok formatted /\
    Forall (fun line => String.length line = sum_list col_widths + 3 * (2 - 1))
           formatted.
Proof.
  apply (formatted_table_is_aligned "| Name | Age |" ["| *Bob* | 30 | x |"]).
  repeat constructor.
Defined.

Lemma render_row_take (ws : list nat) (row : list string) :
  render_row ws (take (length ws) row) = render_row ws row.
Proof. unfold render_row. now rewrite zip_with_take_l. Qed.

Lemma widths_of_rest_take (row0 : list string) (rest : list (list string)) :
  width_of (row0 :: (take (length row0) <$> rest)) <$> seq 0 (length row0)
  = width_of (row0 :: rest) <$> seq 0 (length row0).
Proof.
  apply list_eq. intros c. rewrite !list_lookup_fmap.
  destruct (seq 0 (length row0) !! c) as [c'|] eqn:Hc; [|reflexivity].
  apply lookup_seq in Hc as [-> Hc]. cbn [fmap option_fmap option_map].
  now rewrite !width_of_cons, width_of_take.
Qed.

(** The rendered table depends on the cells below the header's column count
    only. *)
Lemma render_table_take (row0 : list string) (rest : list (list string)) :
  render_table (row0 :: (take (length row0) <$> rest))
  = render_table (row0 :: rest).
Proof.
  unfold render_table. rewrite widths_of_rest_take.
  set (ws := width_of (row0 :: rest) <$> seq 0 (length row0)).
  assert (Hws : length row0 = length ws)
    by (unfold ws; now rewrite length_fmap, length_seq).
  f_equal. f_equal; [now destruct rest|].
  rewrite <- list_fmap_compose. apply list_fmap_ext. intros _ row _.
  cbn [compose]. rewrite Hws. apply render_row_take.
Qed.

(** X3. Cells beyond the column count of the first row have no influence on
    the formatted table: two tables with the same first row whose further
    rows agree on their cells below that count are formatted alike. *)
Theorem extra_cells_are_ignored (first : string) (rest rest' : list string) :
  let num_cols := length (cells_of first) in
  take num_cols <$> (cells_of <$> rest) = take num_cols <$> (cells_of <$> rest') ->
  format_table_for_slack (first :: rest) = format_table_for_slack (first :: rest').
Proof.
  intros num_cols Hsame. rewrite !format_table_for_slack_spec, !fmap_cons.
  rewrite <- (render_table_take _ (cells_of <$> rest)).
  rewrite <- (render_table_take _ (cells_of <$> rest')).
  fold num_cols. now rewrite Hsame.
Qed.

Lemma extra_cells_are_ignored_witness :
  format_table_for_slack ["|a|b|"; "|c|d|eeeee|f|"]
  = format_table_for_slack ["|a|b|"; "|c|d|"].
Proof.
  apply (extra_cells_are_ignored "|a|b|" ["|c|d|eeeee|f|"] ["|c|d|"]).
  reflexivity.
Defined.

(** ** How the scan composes *)

Lemma getitem_shift {A : Type} (before rest : list A) (i : nat) :
  getitem (before ++ rest) (length before + i) = getitem rest i.
Proof.
  unfold getitem. rewrite lookup_app_r by lia.
  now replace (length before + i - length before) with i by lia.
Qed.

Lemma ltb_shift {A : Type} (before rest : list A) (i : nat) :
  (length before + i <? length (before ++ rest)) = (i <? length rest).
Proof.
  rewrite length_app.
  destruct (Nat.ltb_spec i (length rest)); [apply Nat.ltb_lt | apply Nat.ltb_ge];
    lia.
Qed.

(** The collecting loop does the same on the lines that follow [before]. *)
Lemma collect_table_shift (before rest : list string) (fuel : nat) (i : nat)
    (table_lines : list string) (j : nat) (table_lines' : list string) :
  collect_table fuel rest i table_lines = Ok (j, table_lines') ->
  forall fuel', fuel <= fuel' ->
    collect_table fuel' (before ++ rest) (length before + i) table_lines
    = Ok (length before + j, table_lines').
Proof.
  revert i table_lines.
  induction fuel as [|fuel IH]; intros i table_lines Hrun fuel' Hfuel;
    [discriminate|].
  destruct fuel' as [|fuel']; [lia|].
  cbn [collect_table] in *. rewrite ltb_shift, getitem_shift.
  destruct (i <? length rest); [|now injection Hrun as <- <-].
  destruct (getitem rest i) as [line|e]; [|discriminate].
  rewrite bind_Ok in *.
  destruct (continues_table line); [|now injection Hrun as <- <-].
  rewrite <- Nat.add_assoc. apply IH; [assumption | lia].
Qed.

Lemma emit_table_prefix (table_lines acc0 acc out : list string) :
  emit_table table_lines acc0 = Ok out ->
  emit_table table_lines (acc ++ acc0) = Ok (acc ++ out).
Proof.
  unfold emit_table. destruct table_lines as [|line table_lines].
  - now intros [= <-].
  - destruct (format_table_for_slack (line :: table_lines)) as [formatted|e];
      [|discriminate].
    rewrite !bind_Ok. intros [= <-]. now rewrite <- !app_assoc.
Qed.

(** The scanning loop does the same on the lines that follow [before], and
    keeps what was written so far in front of what it writes. *)
Lemma scan_lines_shift (before rest : list string) (fuel : nat) (i : nat)
    (acc0 out : list string) :
  scan_lines fuel rest i acc0 = Ok out ->
  forall fuel' acc, fuel <= fuel' ->
    scan_lines fuel' (before ++ rest) (length before + i) (acc ++ acc0)
    = Ok (acc ++ out).
Proof.
  revert i acc0.
  induction fuel as [|fuel IH]; intros i acc0 Hrun fuel' acc Hfuel;
    [discriminate|].
  destruct fuel' as [|fuel']; [lia|].
  cbn [scan_lines] in *. rewrite ltb_shift, getitem_shift.
  destruct (i <? length rest); [|now injection Hrun as <-].
  destruct (getitem rest i) as [line|e]; [|discriminate].
  rewrite bind_Ok in *.
  destruct (starts_table line).
  - destruct (collect_table (S (length rest)) rest i []) as [[j tl]|e] eqn:Hcol;
      [|discriminate].
    rewrite (collect_table_shift before rest _ _ _ _ _ Hcol)
      by (rewrite length_app; lia).
    rewrite bind_Ok in *.
    destruct (emit_table tl acc0) as [acc1|e] eqn:Hemit; [|discriminate].
    rewrite (emit_table_prefix _ _ acc _ Hemit), bind_Ok in *.
    apply IH; [assumption | lia].
  - rewrite <- Nat.add_assoc, <- app_assoc. apply IH; [assumption | lia].
Qed.

(** X4. Lines that open no table, followed by a table block of which some
    row is kept, followed by any lines the block stops at: the output is the
    leading lines as they are, the fenced table, and then what the
    following lines give when they are scanned alone. *)
Theorem table_between_lines (pre : list string) (first : string)
    (block' post : list string) :
  let block := first :: block' in
  Forall (fun l => starts_table l = false) pre ->
  starts_table first = true ->
  Forall (fun l => continues_table l = true) block ->
  stops_at post ->
  kept_rows block <> [] ->
  exists formatted out,
    format_table_for_slack (kept_rows block) = Ok formatted /\
    scan_all post = Ok out /\
    scan_all (pre ++ block ++ post) = Ok (pre ++ fenced formatted ++ out).
Proof.
  intros block Hpre Hstart Hcont Hpost Hkept.
  destruct (scan_lines_total (S (length post)) post 0 []) as [out Hout]; [lia|].
  exists (render_table (cells_of <$> kept_rows block)), out.
  split; [apply format_table_for_slack_spec|]. split; [exact Hout|].
  unfold scan_all.
  replace (S (length (pre ++ block ++ post)))
    with (length pre + S (S (length post) + length block'))
    by (rewrite !length_app; unfold block; cbn [length]; lia).
  set (fuel := S (length post) + length block').
  pose proof (scan_lines_plain_prefix pre [] (block ++ post) [] (S fuel) Hpre)
    as H1.
  cbn [app length Nat.add] in H1. rewrite H1.
  rewrite (scan_lines_block _ pre block post pre
             (pre ++ fenced (render_table (cells_of <$> kept_rows block)))
             first block' eq_refl Hstart Hcont Hpost).
  - rewrite app_assoc, <- (length_app pre block).
    rewrite <- (Nat.add_0_r (length (pre ++ block))).
    rewrite <- (app_nil_r (pre ++ fenced _)).
    rewrite (scan_lines_shift (pre ++ block) post _ 0 [] out Hout)
      by (unfold fuel; lia).
    now rewrite <- app_assoc.
  - unfold emit_table. destruct (kept_rows block) as [|r rs] eqn:Hk;
      [congruence|].
    rewrite format_table_for_slack_spec, bind_Ok. unfold fenced.
    now rewrite <- !app_assoc.
Qed.

Lemma table_between_lines_witness :
  exists formatted out,
    format_table_for_slack (kept_rows ["| a | bb |"; "|---|---|"; "| c | d |"])
    = Ok formatted /\
    scan_all ["after"; "| x |"] = Ok out /\
    scan_all (["before"] ++ ["| a | bb |"; "|---|---|"; "| c | d |"]
              ++ ["after"; "| x |"])
    = Ok (["before"] ++ fenced formatted ++ out).
Proof.
  apply (table_between_lines ["before"] "| a | bb |"
           ["|---|---|"; "| c | d |"] ["after"; "| x |"]).
  - repeat constructor.
  - reflexivity.
  - repeat constructor.
  - reflexivity.
  - vm_compute. discriminate.
Defined.

(** ** What the emphasis rewrite keeps *)

Lemma remove_char_append (c : ascii) (a b : string) :
  remove_char c (a +:+ b) = remove_char c a +:+ remove_char c b.
Proof.
  induction a as [|x a IH]; [reflexivity|].
  rewrite append_cons. cbn [remove_char].
  destruct (Ascii.eqb x c); [exact IH | now rewrite append_cons, IH].
Qed.

Lemma sub_bold_keeps (n : nat) (s : string) :
  String.length s <= n ->
  remove_char "*" (sub_bold s) = remove_char "*" s /\
  String.length (sub_bold s) <= String.length s.
Proof.
  revert s. induction n as [|n IH]; intros s Hlen.
  - destruct s; [now split | simpl in Hlen; lia].
  - destruct s as [|c s]; [now split|].
    destruct (match_bold (String c s)) as [[content rest]|] eqn:Hmatch.
    + rewrite (sub_bold_match _ _ _ Hmatch).
      apply match_bold_spec in Hmatch. pose proof Hmatch as (Heq & _).
      apply span_at_longer in Hmatch.
      destruct (IH rest) as [Hkeep Hshort]; [lia|].
      rewrite Heq, !remove_char_append, !length_append, Hkeep.
      split; [reflexivity | simpl; lia].
    + rewrite (sub_bold_char _ _ Hmatch).
      destruct (IH s) as [Hkeep Hshort]; [simpl in Hlen; lia|].
      cbn [remove_char String.length]. rewrite Hkeep.
      split; [reflexivity | lia].
Qed.

(** X5. The emphasis rewrite only takes asterisks away: with every asterisk
    removed, its result and its input are the same text, and the result is
    never longer than the input. *)
Theorem emphasis_rewrite_only_drops_asterisks (s : string) :
  remove_char "*" (sub_bold s) = remove_char "*" s /\
  String.length (sub_bold s) <= String.length s.
Proof. now apply (sub_bold_keeps (String.length s)). Qed.

(** ** The emphasis rewrite and the lines *)

Lemma contains_nl_remove_stars (s : string) :
  contains (remove_char "*" s) nl = contains s nl.
Proof.
  induction s as [|c s IH]; [reflexivity|]. cbn [remove_char].
  destruct (Ascii.eqb_spec c "*") as [->|Hc].
  - now rewrite IH, contains_nl_cons.
  - now rewrite !contains_nl_cons, IH.
Qed.

Lemma sub_bold_no_newline (s : string) :
  contains s nl = false -> contains (sub_bold s) nl = false.
Proof.
  intros H. rewrite <- contains_nl_remove_stars.
  rewrite (proj1 (sub_bold_keeps (String.length s) s (Nat.le_refl _))).
  now rewrite contains_nl_remove_stars.
Qed.

Lemma nl_append (b : string) : nl +:+ b = String newline b.
Proof. reflexivity. Qed.

Lemma prefix_without_newline (x b m r : string) :
  x +:+ String newline b = m +:+ r ->
  contains m nl = false ->
  String.length m <= String.length x.
Proof.
  revert m. induction x as [|c x IH]; intros m Heq Hm.
  - destruct m as [|d m]; [simpl; lia|].
    rewrite append_nil_l, append_cons in Heq. injection Heq as <- _.
    rewrite contains_nl_cons, Ascii.eqb_refl in Hm. discriminate.
  - destruct m as [|d m]; [simpl; lia|].
    rewrite !append_cons in Heq. injection Heq as <- Heq.
    rewrite contains_nl_cons in Hm. apply orb_false_iff in Hm as [_ Hm].
    specialize (IH m Heq Hm). simpl. lia.
Qed.

(** A match does not reach over the end of its line. *)
Lemma match_bold_in_line (a b content r : string) :
  match_bold (a +:+ String newline b) = Some (content, r) ->
  String.length content + 4 <= String.length a.
Proof.
  intros Hmatch. apply match_bold_spec in Hmatch as (Heq & Hnl & _).
  replace ("**" +:+ content +:+ "**" +:+ r)
    with (("**" +:+ content +:+ "**") +:+ r) in Heq
    by (now rewrite !append_assoc).
  apply prefix_without_newline in Heq.
  - rewrite !length_append in Heq. simpl in Heq. lia.
  - unfold nl in *. now rewrite !contains_char_append, Hnl.
Qed.

Lemma tries_at_line_end (a b : string) (skip : nat) :
  skip <= String.length a ->
  tries_at (a +:+ String newline b) skip (String.length a) = true.
Proof.
  revert skip. induction a as [|c a IH]; intros skip Hskip.
  - simpl in Hskip. now replace skip with 0 by lia.
  - cbn [String.length tries_at]. rewrite append_cons.
    destruct skip as [|k]; [|apply IH; simpl in Hskip; lia].
    rewrite <- append_cons.
    destruct (match_bold (String c a +:+ String newline b))
      as [[content r]|] eqn:Hmatch; [|apply IH; lia].
    apply match_bold_in_line in Hmatch. apply IH. simpl in Hmatch. lia.
Qed.

(** The rewrite of two lines is the rewrite of the one, the newline, and
    the rewrite of the other. *)
Lemma sub_bold_line (a b : string) :
  sub_bold (a +:+ nl +:+ b) = sub_bold a +:+ nl +:+ sub_bold b.
Proof.
  unfold sub_bold. rewrite !nl_append.
  rewrite (tries_at_split a (String newline b) 0)
    by (apply tries_at_line_end; lia).
  now rewrite sub_scan_try.
Qed.

Lemma split_no_newline (s : string) :
  contains s nl = false -> split newline s = [s].
Proof.
  induction s as [|c s IH]; [reflexivity|]. rewrite contains_nl_cons.
  intros H. apply orb_false_iff in H as [Hc Hs].
  cbn [split]. now rewrite Hc, (IH Hs).
Qed.

Lemma split_line (a b : string) :
  contains a nl = false ->
  split newline (a +:+ nl +:+ b) = a :: split newline b.
Proof.
  induction a as [|c a IH].
  - intros _. rewrite append_nil_l, nl_append. cbn [split].
    now rewrite Ascii.eqb_refl.
  - rewrite contains_nl_cons. intros H.
    apply orb_false_iff in H as [Hc Ha].
    rewrite append_cons. cbn [split]. now rewrite Hc, (IH Ha).
Qed.

Lemma first_line (s : string) :
  contains s nl = false \/
  exists a b, s = a +:+ nl +:+ b /\ contains a nl = false /\
              String.length b < String.length s.
Proof.
  induction s as [|c s IH]; [now left|].
  destruct (Ascii.eqb_spec c newline) as [->|Hc].
  - right. exists "", s. repeat split. simpl. lia.
  - destruct IH as [Hs|(a & b & -> & Ha & Hlen)].
    + left. rewrite contains_nl_cons, Hs.
      now apply Ascii.eqb_neq in Hc as ->.
    + right. exists (String c a), b. repeat split.
      * rewrite contains_nl_cons, Ha. now apply Ascii.eqb_neq in Hc as ->.
      * simpl. lia.
Qed.

Lemma split_sub_bold (n : nat) (s : string) :
  String.length s <= n ->
  split newline (sub_bold s) = sub_bold <$> split newline s.
Proof.
  revert s. induction n as [|n IH]; intros s Hlen.
  - destruct s; [reflexivity | simpl in Hlen; lia].
  - destruct (first_line s) as [Hs|(a & b & -> & Ha & Hb)].
    + now rewrite (split_no_newline s Hs),
        (split_no_newline _ (sub_bold_no_newline s Hs)).
    + rewrite sub_bold_line, (split_line a b Ha).
      rewrite (split_line _ _ (sub_bold_no_newline a Ha)), fmap_cons.
      f_equal. apply IH. lia.
Qed.

(** X6. The emphasis rewrite works line by line: the lines of the rewritten
    text are the rewritten lines of the text, so the translation is the
    scan for tables of the rewritten lines, joined again. *)
Theorem translation_rewrites_line_by_line (text : string) :
  split newline (sub_bold text) = sub_bold <$> split newline text /\
  translate_markdown_for_slack text
  = (result_lines ← scan_all (sub_bold <$> split newline text);
     Ok (join nl result_lines)).
Proof.
  assert (Hsplit : split newline (sub_bold text) = sub_bold <$> split newline text)
    by now apply (split_sub_bold (String.length text)).
  split; [exact Hsplit|].
  unfold translate_markdown_for_slack, translate_with_fuel, line_count, scan_all.
  now rewrite Hsplit.
Qed.

(** ** Texts without tables *)

(** X7. Where no line of the rewritten text opens a table, the translation
    is the emphasis rewrite of the text and nothing else. *)
Theorem translation_is_rewrite_without_tables (text : string) :
  Forall (fun line => starts_table line = false)
         (sub_bold <$> split newline text) ->
  translate_markdown_for_slack text = Ok (sub_bold text).
Proof.
  intros Hlines. apply translation_without_tables.
  now rewrite (split_sub_bold (String.length text)).
Qed.

Lemma translation_is_rewrite_without_tables_witness :
  translate_markdown_for_slack (text_of ["a **b** | c"; "| **open**"; "**x"])
  = Ok (text_of ["a *b* | c"; "| *open*"; "**x"]).
Proof.
  apply (translation_is_rewrite_without_tables
           (text_of ["a **b** | c"; "| **open**"; "**x"])).
  repeat constructor.
Defined.

(** ** Separator rows *)

Lemma separator_tail_intro (body : string) :
  all_chars separator_char body = true ->
  separator_tail (body +:+ "|") = true /\
  separator_tail (body +:+ "|" +:+ nl) = true.
Proof.
  induction body as [|c body IH]; intros Hbody; [now split|].
  cbn [all_chars] in Hbody. apply andb_true_iff in Hbody as [Hc Hbody].
  destruct (IH Hbody) as [H1 H2].
  split; rewrite append_cons; cbn [separator_tail]; now rewrite Hc, ?H1, ?H2.
Qed.

Lemma separator_tail_inv (s : string) :
  separator_tail s = true ->
  exists body, all_chars separator_char body = true /\
               (s = body +:+ "|" \/ s = body +:+ "|" +:+ nl).
Proof.
  induction s as [|c s IH]; [discriminate|]. cbn [separator_tail].
  intros H. apply orb_true_iff in H as [H|H];
    apply andb_true_iff in H as [Hc Hs].
  - destruct (IH Hs) as (body & Hbody & Heq).
    exists (String c body). cbn [all_chars]. rewrite Hc, Hbody.
    split; [reflexivity|]. rewrite !append_cons.
    destruct Heq as [-> | ->]; auto.
  - apply Ascii.eqb_eq in Hc as ->. exists "". split; [reflexivity|].
    unfold at_end in Hs. apply orb_true_iff in Hs as [Hs|Hs];
      apply String.eqb_eq in Hs as ->; auto.
Qed.

(** X8. A collected row is dropped as a separator row exactly when, between
    its first pipe and a last pipe that ends it (a final newline apart), it
    has at least one character and only whitespace, dashes, colons and
    pipes; a row of blank cells is dropped like a row of dashes. *)
Theorem separator_rows_are (s : string) :
  match_separator s = true <->
  exists body,
    body <> "" /\ all_chars separator_char body = true /\
    (s = "|" +:+ body +:+ "|" \/ s = "|" +:+ body +:+ "|" +:+ nl).
Proof.
  split.
  - destruct s as [|c [|d s]]; [discriminate..|]. cbn [match_separator].
    intros H. apply andb_true_iff in H as [H Hs].
    apply andb_true_iff in H as [Hc Hd]. apply Ascii.eqb_eq in Hc as ->.
    destruct (separator_tail_inv s Hs) as (body & Hbody & Heq).
    exists (String d body). split; [discriminate|].
    cbn [all_chars]. rewrite Hd, Hbody. split; [reflexivity|].
    destruct Heq as [-> | ->]; auto.
  - intros (body & Hne & Hbody & Heq).
    destruct body as [|d body]; [congruence|].
    cbn [all_chars] in Hbody. apply andb_true_iff in Hbody as [Hd Hbody].
    destruct (separator_tail_intro body Hbody) as [H1 H2].
    destruct Heq as [-> | ->]; rewrite !append_cons, append_nil_l;
      cbn [match_separator]; now rewrite Hd, ?H1, ?H2.
Qed.

(** ** The environment *)

Lemma load_if_exists_keeps (file : option environ) (env : environ) :
  env ⊆ load_if_exists file env.
Proof.
  destruct file as [bindings|]; [apply map_union_subseteq_l | reflexivity].
Qed.

(** X9. [load_env_with_fallback] changes no variable that is already set,
    an empty token included, and no variable the local [.env] has set: the
    environment it starts from, extended by the local file, is part of the
    environment it leaves. *)
Theorem environment_is_kept (local home found : option environ) (env : environ) :
  env ⊆ load_if_exists local env /\
  load_if_exists local env ⊆ load_env_with_fallback local home found env /\
  env ⊆ load_env_with_fallback local home found env.
Proof.
  assert (H1 : env ⊆ load_if_exists local env) by apply load_if_exists_keeps.
  assert (H2 : load_if_exists local env
               ⊆ load_env_with_fallback local home found env).
  { unfold load_env_with_fallback.
    destruct (no_token (load_if_exists local env)) eqn:Hlocal.
    - destruct (no_token (load_if_exists home (load_if_exists local env)));
        [etrans; apply load_if_exists_keeps | apply load_if_exists_keeps].
    - now rewrite Hlocal. }
  split; [exact H1|]. split; [exact H2|]. etrans; [exact H1 | exact H2].
Qed.

(** X10. When the process or the local [.env] gives a token that is not
    empty, neither [~/.env] nor the file [load_dotenv()] would find is
    read: variables that only they hold, such as a default channel, stay
    unset. *)
Theorem token_stops_the_fallback (local home found : option environ)
    (env : environ) :
  no_token (load_if_exists local env) = false ->
  load_env_with_fallback local home found env = load_if_exists local env.
Proof. intros H. unfold load_env_with_fallback. now rewrite H, H. Qed.

Lemma token_stops_the_fallback_witness :
  default_channel
    (load_env_with_fallback
       (Some {[ "SLACK_BOT_TOKEN" := "xoxb-1" ]})
       (Some {[ "SLACK_CHANNEL" := "#ops" ]}) None ∅)
  = "#general".
Proof.
  rewrite (token_stops_the_fallback
             (Some {[ "SLACK_BOT_TOKEN" := "xoxb-1" ]})
             (Some {[ "SLACK_CHANNEL" := "#ops" ]}) None ∅);
    vm_compute; reflexivity.
Defined.

(** ** [main] *)

Lemma translation_returns (text : string) :
  exists out, translate_markdown_for_slack text = Ok out.
Proof.
  unfold translate_markdown_for_slack, translate_with_fuel, line_count.
  set (lines := split newline (sub_bold text)).
  destruct (scan_lines_total (S (length lines)) lines 0 []) as [out Hout]; [lia|].
  exists (join nl out). now rewrite Hout.
Qed.

Section ShellProperties.
Context {value response : Type} (w : world value response).

Lemma send_message_sent (bot : string) (text : value) (channel : option string) :
  sent (send_message w bot text channel)
  = {| req_channel := or_default channel bot; req_text := text;
       req_blocks := None; req_mrkdwn := true |}.
Proof. unfold send_message. now destruct (chat_postMessage w _). Qed.

Lemma send_message_with_blocks_sent (bot : string) (blocks text : value)
    (channel : option string) :
  sent (send_message_with_blocks w bot blocks text channel)
  = {| req_channel := or_default channel bot; req_text := text;
       req_blocks := Some blocks; req_mrkdwn := true |}.
Proof. unfold send_message_with_blocks. now destruct (chat_postMessage w _). Qed.

Lemma send_message_returned (bot : string) (text : value) (channel : option string) :
  returned (send_message w bot text channel)
  = match chat_postMessage w (sent (send_message w bot text channel)) with
    | Posted r => Some r
    | SlackApiError _ => None
    end.
Proof.
  rewrite send_message_sent. unfold send_message.
  now destruct (chat_postMessage w _).
Qed.

Lemma send_message_with_blocks_returned (bot : string) (blocks text : value)
    (channel : option string) :
  returned (send_message_with_blocks w bot blocks text channel)
  = match chat_postMessage w
            (sent (send_message_with_blocks w bot blocks text channel)) with
    | Posted r => Some r
    | SlackApiError _ => None
    end.
Proof.
  rewrite send_message_with_blocks_sent. unfold send_message_with_blocks.
  now destruct (chat_postMessage w _).
Qed.

Lemma refuse_settled (lines : list string) : settled w (refuse lines).
Proof.
  split; [simpl; lia|]. right. split; [reflexivity|].
  intros (req & r & Hreq & _). discriminate.
Qed.

Lemma finish_settled (s : sending value response) :
  returned s = match chat_postMessage w (sent s) with
               | Posted r => Some r
               | SlackApiError _ => None
               end ->
  settled w (finish w s).
Proof.
  intros Hret. split; [simpl; lia|]. unfold finish, delivered. cbn.
  rewrite Hret. destruct (chat_postMessage w (sent s)) as [r|e] eqn:Hpost.
  - destruct (truthy w r) eqn:Hr.
    + left. split; [reflexivity|]. now exists (sent s), r.
    + right. split; [reflexivity|].
      intros (req & r' & [= <-] & Hpost' & Hr'). congruence.
  - right. split; [reflexivity|].
    intros (req & r' & [= <-] & Hpost' & _). congruence.
Qed.

(** X11. Every run of [main] makes at most one request to Slack.  When the
    command line parses, the exit status is 0 if the run made a request
    that the client answered with a response that counts as true, and 1 if
    not, an exception of [json.loads] that nothing catches included; when
    the parser prints the help the status is 0, on a usage error 2, both
    without a request. *)
Theorem main_exit_status (env : environ) (parsed : parse_result) (isatty : bool)
    (input : string) :
  exists o,
    main w env parsed isatty input = Ok o /\
    length (requests o) <= 1 /\
    match parsed with
    | Namespace _ =>
        exit_status o = 0 /\ delivered w o \/ exit_status o = 1 /\ ~ delivered w o
    | ParserHelp _ => exit_status o = 0 /\ requests o = []
    | ParserError _ => exit_status o = 2 /\ requests o = []
    end.
Proof.
  unfold main. destruct parsed as [args|help|usage];
    [|eexists; split; [reflexivity|]; split; [simpl; lia | now split]..].
  destruct isatty; [eexists; split; [reflexivity|apply refuse_settled]|].
  destruct (String.eqb (strip input) "");
    [eexists; split; [reflexivity|apply refuse_settled]|].
  destruct (if negb (text_only args) then json_loads w (strip input)
            else JSONDecodeError) as [[d|v]| |traceback].
  - destruct (d !! "blocks") as [blocks|].
    + eexists. split; [reflexivity|].
      apply finish_settled, send_message_with_blocks_returned.
    + destruct (d !! "text") as [text|];
        eexists; (split; [reflexivity|]);
        [apply finish_settled, send_message_returned | apply refuse_settled].
  - eexists. split; [reflexivity | apply refuse_settled].
  - destruct (translation_returns (strip input)) as [t Ht].
    rewrite Ht, bind_Ok. eexists. split; [reflexivity|].
    apply finish_settled, send_message_returned.
  - eexists. split; [reflexivity | apply refuse_settled].
Qed.

(** X12. With a command line that parses and input that is not blank and not
    from a terminal, when [--text-only] is given or [json.loads] raises
    [JSONDecodeError], [main] makes one request: the translation of the
    trimmed input as text, without blocks, to the destination of the
    command line or, without one, to the default channel. *)
Theorem plain_text_is_translated_and_sent (env : environ) (args : arguments)
    (input : string) :
  strip input <> "" ->
  text_only args = true \/ json_loads w (strip input) = JSONDecodeError ->
  exists text o,
    translate_markdown_for_slack (strip input) = Ok text /\
    main w env (Namespace args) false input = Ok o /\
    requests o
    = [{| req_channel := or_default (destination args) (default_channel env);
          req_text := str_value w text;
          req_blocks := None; req_mrkdwn := true |}].
Proof.
  intros Hinput Hplain.
  destruct (translation_returns (strip input)) as [t Ht].
  exists t. eexists. split; [exact Ht|].
  unfold main. apply String.eqb_neq in Hinput. rewrite Hinput.
  replace (if negb (text_only args) then json_loads w (strip input)
           else JSONDecodeError)
    with (@JSONDecodeError value)
    by (destruct Hplain as [-> | ->]; [reflexivity | now destruct (negb _)]).
  rewrite Ht, bind_Ok. split; [reflexivity|].
  cbn [finish requests]. now rewrite send_message_sent.
Qed.

(** X13. A JSON message is sent as it is, without the markdown translation:
    with blocks when it has the key [blocks], its [text] or the empty
    string going along; with its [text] alone when it has that key only. *)
Theorem json_message_is_sent_as_it_is (env : environ) (args : arguments)
    (input : string) (message_data : gmap string value) :
  strip input <> "" ->
  text_only args = false ->
  json_loads w (strip input) = Loaded (JsonDict message_data) ->
  is_Some (message_data !! "blocks") \/ is_Some (message_data !! "text") ->
  exists o,
    main w env (Namespace args) false input = Ok o /\
    requests o
    = [{| req_channel := or_default (destination args) (default_channel env);
          req_text := default (str_value w "") (message_data !! "text");
          req_blocks := message_data !! "blocks"; req_mrkdwn := true |}].
Proof.
  intros Hinput Hjson Hloads Hkeys.
  unfold main. apply String.eqb_neq in Hinput. rewrite Hinput, Hjson, Hloads.
  cbn [negb]. destruct (message_data !! "blocks") as [blocks|] eqn:Hblocks.
  - eexists. split; [reflexivity|].
    cbn [finish requests]. now rewrite send_message_with_blocks_sent.
  - destruct Hkeys as [[b Hb]|[text Htext]]; [discriminate|].
    rewrite Htext. eexists. split; [reflexivity|].
    cbn [finish requests]. now rewrite send_message_sent.
Qed.


End ShellProperties.

Lemma plain_text_is_translated_and_sent_witness :
  exists text o,
    translate_markdown_for_slack (strip " **hi** ") = Ok text /\
    main example_world ∅
         (Namespace {| destination := Some ""; text_only := true |})
         false " **hi** " = Ok o /\
    requests o
    = [{| req_channel := "#general"; req_text := text;
          req_blocks := None; req_mrkdwn := true |}].
Proof.
  assert (Hinput : strip " **hi** " <> "") by (vm_compute; discriminate).
  pose proof (plain_text_is_translated_and_sent example_world ∅
                {| destination := Some ""; text_only := true |} " **hi** "
                Hinput (or_introl eq_refl)) as H.
  vm_compute in H. vm_compute. exact H.
Defined.

Lemma json_message_is_sent_as_it_is_witness :
  let w := {| str_value := fun s : string => s;
              json_loads := fun _ =>
                Loaded (JsonDict {[ "text" := "**hi**" ]});
              chat_postMessage := fun _ => Posted true;
              truthy := fun r : bool => r |} in
  exists o,
    main w ∅ (Namespace {| destination := Some "#ops"; text_only := false |})
         false "{..}"
    = Ok o /\
    requests o
    = [{| req_channel := "#ops"; req_text := "**hi**";
          req_blocks := None; req_mrkdwn := true |}].
Proof.
  intros w.
  assert (Hinput : strip "{..}" <> "") by (vm_compute; discriminate).
  assert (Hkeys : is_Some (({[ "text" := "**hi**" ]} : gmap string string)
                             !! "blocks")
                  \/ is_Some (({[ "text" := "**hi**" ]} : gmap string string)
                                !! "text"))
    by (right; vm_compute; eauto).
  pose proof (json_message_is_sent_as_it_is w ∅
                {| destination := Some "#ops"; text_only := false |} "{..}"
                {[ "text" := "**hi**" ]} Hinput eq_refl eq_refl Hkeys) as H.
  vm_compute in H. vm_compute. exact H.
Defined.

(** ** The cells of a row *)

Lemma contains_append_l (m b p : string) :
  contains m p = true -> contains (m +:+ b) p = true.
Proof.
  intros H. apply contains_inv in H as (x & y & ->).
  rewrite !append_assoc. apply contains_middle.
Qed.

Lemma rstrip_prefix (s : string) : exists b, s = rstrip s +:+ b.
Proof.
  induction s as [|c s [b IH]]; [now exists ""|]. cbn [rstrip].
  destruct (rstrip s) as [|d r].
  - rewrite append_nil_l in IH. subst b.
    destruct (isspace c); [now exists (String c s) | now exists s].
  - exists b. now rewrite append_cons, <- IH.
Qed.

(** Trimming takes a part of the string. *)
Lemma strip_contains (s p : string) :
  contains (strip s) p = true -> contains s p = true.
Proof.
  unfold strip. intros H.
  destruct (lstrip_suffix s) as [a Ha].
  destruct (rstrip_prefix (lstrip s)) as [b Hb].
  rewrite Ha, Hb. now apply contains_later, contains_append_l.
Qed.

Lemma rstrip_rstrip (s : string) : rstrip (rstrip s) = rstrip s.
Proof.
  induction s as [|c s IH]; [reflexivity|]. cbn [rstrip].
  destruct (rstrip s) as [|d r] eqn:Hr.
  - destruct (isspace c) eqn:Hc; [reflexivity|]. cbn [rstrip]. now rewrite Hc.
  - cbn [rstrip]. cbn [rstrip] in IH.
    destruct (rstrip r) as [|e r']; now rewrite IH.
Qed.

Lemma lstrip_stripped (s : string) : lstrip (strip s) = strip s.
Proof.
  unfold strip. destruct (rstrip (lstrip s)) as [|c r] eqn:Hr; [reflexivity|].
  destruct (rstrip_head _ _ _ Hr) as [s' Hs'].
  cbn [lstrip]. destruct (isspace c) eqn:Hc; [|reflexivity].
  exfalso. clear Hr. induction s as [|x s IH]; [discriminate|].
  cbn [lstrip] in Hs'. destruct (isspace x) eqn:Hx; [auto|].
  injection Hs' as -> _. congruence.
Qed.

Lemma strip_strip (s : string) : strip (strip s) = strip s.
Proof.
  unfold strip at 1. rewrite lstrip_stripped. unfold strip.
  apply rstrip_rstrip.
Qed.

Lemma split_without_separator (c : ascii) (s : string) :
  Forall (fun segment => contains segment (String c "") = false) (split c s).
Proof.
  induction s as [|x s IH]; [repeat constructor|]. cbn [split].
  destruct (Ascii.eqb x c) eqn:Hx; [now constructor|].
  destruct (split c s) as [|h t]; [repeat constructor|].
  - now rewrite contains_char_cons, Ascii.eqb_sym, Hx.
  - inversion IH as [|h' t' Hh Ht]; subst. constructor; [|assumption].
    now rewrite contains_char_cons, Ascii.eqb_sym, Hx, Hh.
Qed.

Lemma Forall_removelast {A : Type} (P : A -> Prop) (l : list A) :
  Forall P l -> Forall P (removelast l).
Proof.
  induction 1 as [|x l Hx Hl IH]; [constructor|].
  cbn [removelast]. destruct l; [constructor | now constructor].
Qed.

Lemma Forall_slice_inner {A : Type} (P : A -> Prop) (l : list A) :
  Forall P l -> Forall P (slice_inner l).
Proof.
  intros H. unfold slice_inner. apply Forall_removelast.
  destruct H; [constructor | assumption].
Qed.

(** X15. The cells taken from a row are trimmed and hold no pipe: a pipe
    always ends a cell, there is no way to write one inside a cell. *)
Theorem cells_are_trimmed_and_hold_no_pipe (line : string) :
  Forall (fun cell => strip cell = cell /\ contains cell "|" = false)
         (cells_of line).
Proof.
  unfold cells_of. apply Forall_fmap.
  eapply Forall_impl; [apply Forall_slice_inner, split_without_separator|].
  intros segment Hseg. cbn. split; [apply strip_strip|].
  destruct (contains (strip segment) "|") eqn:H; [|reflexivity].
  apply strip_contains in H. congruence.
Qed.
